(** * Placeholder engine of the legal-document assistant

    A shallow embedding of the document-processing services of the
    repository:

    - [services/documentParser.ts]: placeholder extraction, metadata
      inference, filling and validation;
    - [services/documentDownload.ts]: the line classifier of the local
      renderer and the validation run before a download;
    - [services/apiService.ts]: the upload validation;
    - the preview component: the highlight view of unfilled placeholders.

    JavaScript strings are modelled as lists of code units, each below
    256.  White space and lower-casing are those of JavaScript on these
    code units; so is upper-casing, except on the three code units whose
    upper-case form is not one code unit below 256 (181, 223 and 255),
    which the model leaves as they are.  The host
    facilities the services call (the locale collation behind
    [localeCompare], the date parser behind [new Date], the clock and the
    random generator behind [generateId]) are parameters of the model. *)

From Stdlib Require Import Ascii String DecimalString.
From Stdlib Require Import List Bool Arith ZArith Lia.
From Stdlib Require Import Sorting.Sorted Sorting.Permutation.
Import ListNotations.

Set Implicit Arguments.

(* ================================================================= *)
(** ** Strings *)

Definition jstring := list ascii.

Definition js (s : string) : jstring := list_ascii_of_string s.
Arguments js s%_string.

Definition code (c : ascii) : nat := nat_of_ascii c.

Definition in_range (lo hi : nat) (c : ascii) : bool :=
  (lo <=? code c) && (code c <=? hi).

Definition is_upper : ascii -> bool := in_range 65 90.
Definition is_lower : ascii -> bool := in_range 97 122.
Definition is_digit : ascii -> bool := in_range 48 57.

(** The white space of [String.prototype.trim], of the numeric-literal
    grammar and of the regular-expression class [\s]. *)
Definition is_space (c : ascii) : bool :=
  in_range 9 13 c || (code c =? 32) || (code c =? 160).

(** Line terminators, which the regular-expression dot does not match. *)
Definition is_line_terminator (c : ascii) : bool :=
  (code c =? 10) || (code c =? 13).

Definition is_char (a c : ascii) : bool := Ascii.eqb a c.

(** The letters of the upper half that have a case: the capitals from
    192 to 222 and the small letters from 224 to 254, but for the
    multiplication and division signs (215 and 247). *)
Definition is_latin1_upper (c : ascii) : bool :=
  in_range 192 222 c && negb (code c =? 215).
Definition is_latin1_lower (c : ascii) : bool :=
  in_range 224 254 c && negb (code c =? 247).

Definition lower_char (c : ascii) : ascii :=
  if is_upper c || is_latin1_upper c then ascii_of_nat (code c + 32) else c.

Definition upper_char (c : ascii) : ascii :=
  if is_lower c || is_latin1_lower c then ascii_of_nat (code c - 32) else c.

Definition toLowerCase (s : jstring) : jstring := map lower_char s.
Definition toUpperCase (s : jstring) : jstring := map upper_char s.

Fixpoint drop_while (p : ascii -> bool) (s : jstring) : jstring :=
  match s with
  | [] => []
  | c :: tl => if p c then drop_while p tl else s
  end.

Definition trimStart (s : jstring) : jstring := drop_while is_space s.
Definition trimEnd (s : jstring) : jstring := rev (drop_while is_space (rev s)).
Definition trim (s : jstring) : jstring := trimEnd (trimStart s).

Fixpoint str_eqb (a b : jstring) : bool :=
  match a, b with
  | [], [] => true
  | x :: a', y :: b' => Ascii.eqb x y && str_eqb a' b'
  | _, _ => false
  end.

Definition is_empty (s : jstring) : bool :=
  match s with [] => true | _ => false end.

Fixpoint starts_with (p s : jstring) : bool :=
  match p, s with
  | [], _ => true
  | x :: p', y :: s' => Ascii.eqb x y && starts_with p' s'
  | _ :: _, [] => false
  end.

(** [String.prototype.includes]. *)
Fixpoint includes (needle hay : jstring) : bool :=
  starts_with needle hay ||
  match hay with
  | [] => false
  | _ :: tl => includes needle tl
  end.

(** [String.prototype.split] with a separator of one code unit. *)
Fixpoint split_on (sep : ascii) (s : jstring) : list jstring :=
  match s with
  | [] => [[]]
  | c :: tl =>
      if Ascii.eqb c sep then [] :: split_on sep tl
      else match split_on sep tl with
           | w :: ws => (c :: w) :: ws
           | [] => [[c]]
           end
  end.

(** [Array.prototype.join]. *)
Fixpoint join (sep : jstring) (l : list jstring) : jstring :=
  match l with
  | [] => []
  | [w] => w
  | w :: ws => w ++ sep ++ join sep ws
  end.

(** Decimal rendering of a number interpolated in a template literal. *)
Definition decimal (n : nat) : jstring :=
  list_ascii_of_string (NilZero.string_of_uint (Nat.to_uint n)).

(* ================================================================= *)
(** ** Regular expressions

    The fragment of the pattern language the services use: character
    classes, greedy repetition of a class, concatenation, capturing
    groups and the two anchors (no [m] flag anywhere in the sources). *)

Inductive regex : Type :=
| Chr (p : ascii -> bool)
| Star (p : ascii -> bool)
| Plus (p : ascii -> bool)
| Cat (r1 r2 : regex)
| Empty
| Group (i : nat) (r : regex)
| Bol
| Eol.

(** State of one match attempt: the code units taken so far (most recent
    first), the rest of the subject and the captures recorded. *)
Record mstate : Type := MState {
  taken : jstring;
  rest : jstring;
  caps : list (nat * jstring)
}.

(** Greedy repetition: the longest run is tried first, then shorter ones. *)
Fixpoint greedy (p : ascii -> bool) (tk rs : jstring) (cs : list (nat * jstring))
  : list mstate :=
  match rs with
  | c :: tl =>
      if p c then greedy p (c :: tk) tl cs ++ [MState tk rs cs]
      else [MState tk rs cs]
  | [] => [MState tk rs cs]
  end.

(** All the ways [r] matches at the current position, in the order a
    backtracking matcher tries them.  [bol] tells whether the attempt
    starts at index 0 of the subject. *)
Fixpoint rmatch (bol : bool) (r : regex) (st : mstate) : list mstate :=
  match r with
  | Chr p =>
      match rest st with
      | c :: tl => if p c then [MState (c :: taken st) tl (caps st)] else []
      | [] => []
      end
  | Star p => greedy p (taken st) (rest st) (caps st)
  | Plus p =>
      match rest st with
      | c :: tl => if p c then greedy p (c :: taken st) tl (caps st) else []
      | [] => []
      end
  | Cat r1 r2 => flat_map (rmatch bol r2) (rmatch bol r1 st)
  | Empty => [st]
  | Group i r0 =>
      map (fun st' =>
             MState (taken st' ++ taken st) (rest st')
                    ((i, rev (taken st')) :: caps st'))
          (rmatch (bol && is_empty (taken st)) r0
                  (MState [] (rest st) (caps st)))
  | Bol => if bol && is_empty (taken st) then [st] else []
  | Eol => if is_empty (rest st) then [st] else []
  end.

(** Number of capturing groups of a pattern. *)
Fixpoint ngroups (r : regex) : nat :=
  match r with
  | Cat r1 r2 => ngroups r1 + ngroups r2
  | Group _ r0 => S (ngroups r0)
  | _ => 0
  end.

(** Leftmost match in [s]: the code units skipped before the match and
    the final state of the first successful attempt. *)
Fixpoint search (r : regex) (bol : bool) (s : jstring)
  : option (jstring * mstate) :=
  match rmatch bol r (MState [] s []) with
  | st :: _ => Some ([], st)
  | [] =>
      match s with
      | [] => None
      | c :: tl =>
          match search r false tl with
          | Some (sk, st) => Some (c :: sk, st)
          | None => None
          end
      end
  end.

(** [RegExp.prototype.test] on a pattern without the [g] flag. *)
Definition test (r : regex) (s : jstring) : bool :=
  match search r true s with Some _ => true | None => false end.

(** The text of capture [i] (the empty string when it did not take part). *)
Fixpoint capture (i : nat) (cs : list (nat * jstring)) : jstring :=
  match cs with
  | [] => []
  | (j, v) :: tl => if i =? j then v else capture i tl
  end.

(** A global pattern object between two calls of [exec]: [lastIndex] is
    represented by the part of the subject that lies after it, together
    with whether it is still index 0. *)
Record cursor : Type := Cursor {
  at_start : bool;
  remaining : jstring
}.

Record exec_result : Type := ExecResult {
  m0 : jstring;
  m_caps : list (nat * jstring)
}.

(** [RegExp.prototype.exec] on a global pattern: [None] is the [null]
    result (after which [lastIndex] is 0 again). *)
Definition exec (r : regex) (cur : cursor) : option (exec_result * cursor) :=
  match search r (at_start cur) (remaining cur) with
  | None => None
  | Some (sk, st) =>
      Some (ExecResult (rev (taken st)) (caps st),
            Cursor (at_start cur && is_empty sk && is_empty (taken st))
                   (rest st))
  end.

(** *** Replacement templates ([GetSubstitution]) *)

Definition digit_val (c : ascii) : nat := code c - 48.

Section Expand.
Variables (matched before after : jstring).
Variables (m : nat) (cs : list (nat * jstring)).

Definition group_ref (idx : nat) : bool := (1 <=? idx) && (idx <=? m).

Fixpoint expand (tpl : jstring) : jstring :=
  match tpl with
  | [] => []
  | c :: t =>
      if negb (is_char "$" c) then c :: expand t else
      match t with
      | [] => [c]
      | d :: t' =>
          if is_char "$" d then d :: expand t'
          else if is_char "&" d then matched ++ expand t'
          else if is_char "`" d then before ++ expand t'
          else if is_char "'" d then after ++ expand t'
          else if is_digit d then
            match t' with
            | d2 :: t'' =>
                if is_digit d2 && group_ref (10 * digit_val d + digit_val d2)
                then capture (10 * digit_val d + digit_val d2) cs ++ expand t''
                else if group_ref (digit_val d)
                then capture (digit_val d) cs ++ expand t'
                else c :: d :: expand t'
            | [] =>
                if group_ref (digit_val d)
                then capture (digit_val d) cs ++ expand t'
                else c :: d :: expand t'
            end
          else c :: expand t
      end
  end.
End Expand.

(** [String.prototype.replace] with a global pattern and a template.
    [before_rev] holds the part of the subject already behind the scan.
    After an empty match the scan advances by one code unit.  Every round
    but the last moves the scan forward, so the loop makes at most one
    round for each code unit and one more; [fuel] is that bound. *)
Fixpoint replace_loop (fuel : nat) (r : regex) (tpl : jstring)
         (before_rev : jstring) (s : jstring) : jstring :=
  match fuel with
  | 0 => s
  | S f =>
      match search r (is_empty before_rev) s with
      | None => s
      | Some (sk, st) =>
          let pos_rev := rev sk ++ before_rev in
          sk ++ expand (rev (taken st)) (rev pos_rev) (rest st)
                       (ngroups r) (caps st) tpl
             ++ match taken st, rest st with
                | [], [] => []
                | [], c :: tl => c :: replace_loop f r tpl (c :: pos_rev) tl
                | _ :: _, _ =>
                    replace_loop f r tpl (taken st ++ pos_rev) (rest st)
                end
      end
  end.

Definition replace (r : regex) (s tpl : jstring) : jstring :=
  replace_loop (S (length s)) r tpl [] s.


Infix "+++" := Cat (right associativity, at level 60).

Definition lit (c : ascii) : regex := Chr (is_char c).
Definition none_of (c : ascii) : ascii -> bool := fun x => negb (is_char c x).

(** Concatenation of a list of patterns, and the pattern of a literal text. *)
Definition seq (l : list regex) : regex := fold_right Cat Empty l.
Definition lits (s : jstring) : regex := seq (map lit s).

(** *** The [RegExp] constructor

    [new RegExp(source, flags)] on the fragment of pattern sources the
    services build at run time: ordinary characters, syntax characters
    escaped with a backslash and capturing parentheses.  [None] stands for
    a source outside this fragment (which includes the sources that raise
    a [SyntaxError]). *)

Definition is_syntax (c : ascii) : bool :=
  existsb (is_char c) (js ".*+?^${}()|[]\").

Inductive token : Type :=
| TLit (c : ascii)
| TOpen
| TClose.

Fixpoint tokenize (s : jstring) : option (list token) :=
  match s with
  | [] => Some []
  | c :: tl =>
      if is_char "\" c then
        match tl with
        | d :: tl' =>
            if is_syntax d then option_map (cons (TLit d)) (tokenize tl')
            else None
        | [] => None
        end
      else if is_char "(" c then option_map (cons TOpen) (tokenize tl)
      else if is_char ")" c then option_map (cons TClose) (tokenize tl)
      else if is_syntax c then None
      else option_map (cons (TLit c)) (tokenize tl)
  end.

(** [cur] holds the atoms of the sequence being read, most recent first;
    [stack] the enclosing sequences with the number of the group that was
    opened; groups are numbered by their opening parenthesis. *)
Fixpoint build (toks : list token) (cur : list regex)
         (stack : list (nat * list regex)) (next : nat) : option regex :=
  match toks with
  | [] => match stack with [] => Some (seq (rev cur)) | _ :: _ => None end
  | TLit c :: tl => build tl (lit c :: cur) stack next
  | TOpen :: tl => build tl [] ((next, cur) :: stack) (S next)
  | TClose :: tl =>
      match stack with
      | (i, outer) :: stack' =>
          build tl (Group i (seq (rev cur)) :: outer) stack' next
      | [] => None
      end
  end.

Definition RegExp (source : jstring) : option regex :=
  match tokenize source with
  | Some toks => build toks [] [] 1
  | None => None
  end.

(* ================================================================= *)
(** ** Numeric literals

    [isNaN(Number(s))] is decided by the grammar of string numeric
    literals alone: the conversion yields [NaN] exactly on the strings
    outside that grammar. *)

Fixpoint take_while (p : ascii -> bool) (s : jstring) : jstring :=
  match s with
  | [] => []
  | c :: tl => if p c then c :: take_while p tl else []
  end.

Definition is_hex_digit (c : ascii) : bool :=
  is_digit c || in_range 65 70 c || in_range 97 102 c.

Definition nonempty_all (p : ascii -> bool) (s : jstring) : bool :=
  negb (is_empty s) && forallb p s.

Definition exponent_part_opt (s : jstring) : bool :=
  match s with
  | [] => true
  | e :: tl =>
      (is_char "e" e || is_char "E" e) &&
      match tl with
      | sg :: tl' =>
          if is_char "+" sg || is_char "-" sg
          then nonempty_all is_digit tl'
          else nonempty_all is_digit tl
      | [] => false
      end
  end.

Definition unsigned_decimal_literal (s : jstring) : bool :=
  str_eqb s (js "Infinity") ||
  let int := take_while is_digit s in
  match drop_while is_digit s with
  | [] => negb (is_empty int)
  | dot :: r2 =>
      if is_char "." dot then
        (negb (is_empty int) || negb (is_empty (take_while is_digit r2)))
        && exponent_part_opt (drop_while is_digit r2)
      else negb (is_empty int) && exponent_part_opt (dot :: r2)
  end.

Definition decimal_literal (s : jstring) : bool :=
  match s with
  | sg :: tl =>
      if is_char "+" sg || is_char "-" sg then unsigned_decimal_literal tl
      else unsigned_decimal_literal s
  | [] => false
  end.

Definition non_decimal_integer_literal (s : jstring) : bool :=
  match s with
  | z :: x :: ds =>
      is_char "0" z &&
      (if is_char "x" x || is_char "X" x then nonempty_all is_hex_digit ds
       else if is_char "o" x || is_char "O" x then nonempty_all (in_range 48 55) ds
       else if is_char "b" x || is_char "B" x then nonempty_all (in_range 48 49) ds
       else false)
  | _ => false
  end.

(** [isNaN(Number(s))] *)
Definition isNaN_Number (s : jstring) : bool :=
  match trim s with
  | [] => false
  | t => negb (decimal_literal t || non_decimal_integer_literal t)
  end.

(* ================================================================= *)
(** ** The host *)

(** What the services take from the JavaScript host: the collation of
    [String.prototype.localeCompare] (negative, zero or positive) and
    whether [new Date(s)] denotes a valid time. *)
Record Host : Type := {
  localeCompare : jstring -> jstring -> Z;
  date_parses : jstring -> bool
}.

(** The clock and the random generator read by [generateId]: the [k]-th
    read yields the decimal text of [Date.now()] and the nine base-36
    digits cut out of [Math.random()]. *)
Record World : Type := {
  stamp : nat -> jstring;
  nonce : nat -> jstring;
  reads : nat
}.

(** [Array.prototype.sort] with a comparator: a stable sort, here by
    insertion (an element goes before the first one it does not exceed). *)
Section Sort.
Variable A : Type.
Variable cmp : A -> A -> Z.

Fixpoint insert_by (x : A) (l : list A) : list A :=
  match l with
  | [] => [x]
  | y :: tl => if (cmp x y <=? 0)%Z then x :: l else y :: insert_by x tl
  end.

Definition sort_by (l : list A) : list A := fold_right insert_by [] l.
End Sort.

(* ================================================================= *)
(** ** services/documentParser.ts *)

Inductive PlaceholderType : Type := TText | TDate | TNumber | TEmail.

Record Placeholder : Type := {
  id : jstring;
  label : jstring;
  originalText : jstring;
  value : option jstring;
  type : PlaceholderType;
  required : bool;
  description : option jstring
}.

(** Shape of the validation results of all three services. *)
Record ValidationResult : Type := {
  isValid : bool;
  errors : list jstring
}.

Module Parser.

(** The four patterns of [extractPlaceholders], in their order. *)
Definition double_curly : regex :=
  lit "{" +++ lit "{" +++ Group 1 (Plus (none_of "}")) +++ lit "}" +++ lit "}".

Definition square_upper : regex :=
  lit "[" +++
  Group 1 (Plus (fun c => is_upper c || is_char "_" c || is_space c)) +++
  lit "]".

Definition double_angle : regex :=
  lit "<" +++ lit "<" +++ Group 1 (Plus (none_of ">")) +++ lit ">" +++ lit ">".

Definition single_curly : regex :=
  lit "{" +++ Group 1 (Plus (none_of "}")) +++ lit "}".

Definition placeholderPatterns : list regex :=
  [double_curly; square_upper; double_angle; single_curly].

Definition generateId (w : World) : jstring * World :=
  (js "placeholder_" ++ stamp w (reads w) ++ js "_" ++ nonce w (reads w),
   {| stamp := stamp w; nonce := nonce w; reads := S (reads w) |}).

Definition formatLabel (text : jstring) : jstring :=
  join (js " ")
       (map (fun word =>
               toUpperCase (firstn 1 word) ++ toLowerCase (skipn 1 word))
            (split_on " " text)).

Definition underscore_or_dash : regex :=
  Chr (fun c => is_char "_" c || is_char "-" c).

Definition createPlaceholder (w : World) (text originalText : jstring)
  : Placeholder * World :=
  let cleanText := trim (replace underscore_or_dash text (js " ")) in
  let lowerText := toLowerCase cleanText in
  let '(type, description) :=
    if includes (js "date") lowerText || includes (js "time") lowerText
    then (TDate, js "Enter a date")
    else if includes (js "email") lowerText || includes (js "e-mail") lowerText
    then (TEmail, js "Enter an email address")
    else if includes (js "number") lowerText
            || includes (js "amount") lowerText
            || includes (js "price") lowerText
            || includes (js "cost") lowerText
    then (TNumber, js "Enter a number")
    else (TText, js "Enter text") in
  let required :=
    negb (includes (js "optional") lowerText)
    && negb (includes (js "if applicable") lowerText) in
  let '(new_id, w') := generateId w in
  ({| id := new_id;
      label := formatLabel cleanText;
      originalText := originalText;
      value := None;
      type := type;
      required := required;
      description := Some description |}, w').

(** The local state of one call of [extractPlaceholders]. *)
Record ExtractState : Type := {
  foundPlaceholders : list jstring;
  placeholders : list Placeholder;
  world : World
}.

Definition has (k : jstring) (set : list jstring) : bool :=
  existsb (str_eqb k) set.

(** The [while] loop over the matches of one pattern.  [None] is a loop
    that has not ended within [fuel] rounds. *)
Fixpoint match_loop (fuel : nat) (pattern : regex) (cur : cursor)
         (st : ExtractState) : option ExtractState :=
  match fuel with
  | 0 => None
  | S f =>
      match exec pattern cur with
      | None => Some st
      | Some (m, cur') =>
          let originalText := m0 m in
          let placeholderText := trim (capture 1 (m_caps m)) in
          if has (toLowerCase placeholderText) (foundPlaceholders st)
          then match_loop f pattern cur' st
          else
            let '(placeholder, w') :=
              createPlaceholder (world st) placeholderText originalText in
            match_loop f pattern cur'
              {| foundPlaceholders :=
                   foundPlaceholders st ++ [toLowerCase placeholderText];
                 placeholders := placeholders st ++ [placeholder];
                 world := w' |}
      end
  end.

(** The [forEach] over the patterns. *)
Fixpoint each_pattern (patterns : list regex) (content : jstring)
         (st : ExtractState) : option ExtractState :=
  match patterns with
  | [] => Some st
  | pattern :: tl =>
      match match_loop (S (length content)) pattern (Cursor true content) st with
      | Some st' => each_pattern tl content st'
      | None => None
      end
  end.

Definition detect (w : World) (content : jstring) : option ExtractState :=
  each_pattern placeholderPatterns content
    {| foundPlaceholders := []; placeholders := []; world := w |}.

Definition by_label (h : Host) (a b : Placeholder) : Z :=
  localeCompare h (label a) (label b).

Definition extractPlaceholders (h : Host) (w : World) (content : jstring)
  : option (list Placeholder) :=
  option_map (fun st => sort_by (by_label h) (placeholders st))
             (detect w content).

(** The pattern of [fillPlaceholders] that finds the syntax characters of
    [originalText], and the escaping it performs. *)
Definition syntax_character : regex := Chr is_syntax.

Definition escape (s : jstring) : jstring :=
  replace syntax_character s (js "\$&").

Definition fill_one (filledContent : jstring) (placeholder : Placeholder)
  : option jstring :=
  match value placeholder with
  | Some (c :: v) =>
      match RegExp (escape (originalText placeholder)) with
      | Some regex => Some (replace regex filledContent (c :: v))
      | None => None
      end
  | _ => Some filledContent
  end.

Fixpoint fill_each (phs : list Placeholder) (filledContent : jstring)
  : option jstring :=
  match phs with
  | [] => Some filledContent
  | p :: tl =>
      match fill_one filledContent p with
      | Some filled' => fill_each tl filled'
      | None => None
      end
  end.

Definition fillPlaceholders (content : jstring) (phs : list Placeholder)
  : option jstring :=
  fill_each phs content.


(** [/^[^\s@]+@[^\s@]+\.[^\s@]+$/] *)
Definition emailRegex : regex :=
  let part := Plus (fun c => negb (is_space c || is_char "@" c)) in
  Bol +++ part +++ lit "@" +++ part +++ lit "." +++ part +++ Eol.

Definition isValidEmail (email : jstring) : bool := test emailRegex email.

Definition isValidDate (h : Host) (dateString : jstring) : bool :=
  date_parses h dateString.

(** [!placeholder.value?.trim()] *)
Definition blank (v : option jstring) : bool :=
  match v with
  | Some s => is_empty (trim s)
  | None => true
  end.

Definition validate_one (h : Host) (errors : list jstring) (p : Placeholder)
  : list jstring :=
  if required p && blank (value p)
  then errors ++ [label p ++ js " is required"]
  else
    match value p with
    | Some (c :: v) =>
        match type p with
        | TEmail =>
            if negb (isValidEmail (c :: v))
            then errors ++ [label p ++ js " must be a valid email address"]
            else errors
        | TNumber =>
            if isNaN_Number (c :: v)
            then errors ++ [label p ++ js " must be a valid number"]
            else errors
        | TDate =>
            if negb (isValidDate h (c :: v))
            then errors ++ [label p ++ js " must be a valid date"]
            else errors
        | TText => errors
        end
    | _ => errors
    end.

Definition validatePlaceholders (h : Host) (phs : list Placeholder)
  : ValidationResult :=
  let errors := fold_left (validate_one h) phs [] in
  {| isValid := length errors =? 0; errors := errors |}.

End Parser.

(* ================================================================= *)
(** ** services/documentDownload.ts *)

Module Download.

(** The members of [HeadingLevel] in the document library. *)
Inductive HeadingLevel : Type :=
| HEADING_1 | HEADING_2 | HEADING_3 | HEADING_4 | HEADING_5 | HEADING_6
| TITLE.

(** A paragraph of the generated document with its single text run; the
    size is in half-points as the document library takes it. *)
Record Paragraph : Type := {
  text : jstring;
  bold : bool;
  size : nat;
  heading : option HeadingLevel;
  spacing_after : nat
}.

Definition upper_or_space (c : ascii) : bool := is_upper c || is_space c.

(** [/^[A-Z][A-Z\s]+$/] *)
Definition all_caps : regex :=
  Bol +++ Chr is_upper +++ Plus upper_or_space +++ Eol.

(** [/^\d+\.\s/] *)
Definition numbered : regex :=
  Bol +++ Plus is_digit +++ lit "." +++ Chr is_space.

(** [/^[A-Z][a-z]+:$/] *)
Definition title_colon : regex :=
  Bol +++ Chr is_upper +++ Plus is_lower +++ lit ":" +++ Eol.

(** [/^[A-Z].*[^.]$/] *)
Definition capital_no_period : regex :=
  Bol +++ Chr is_upper +++ Star (fun c => negb (is_line_terminator c)) +++
  Chr (none_of ".") +++ Eol.

Definition headingPatterns : list regex :=
  [all_caps; numbered; title_colon; capital_no_period].

Definition isHeading (line : jstring) : bool :=
  existsb (fun pattern => test pattern (trim line)) headingPatterns
  && (length line <? 100).

Definition getHeadingLevel (line : jstring) : HeadingLevel :=
  if test numbered line then HEADING_2
  else if test all_caps line then HEADING_1
  else HEADING_3.

Definition getHeadingSize (level : HeadingLevel) : nat :=
  match level with
  | HEADING_1 => 32
  | HEADING_2 => 28
  | HEADING_3 => 26
  | _ => 24
  end.

Definition paragraph_of_line (line : jstring) : list Paragraph :=
  let trimmedLine := trim line in
  if is_empty trimmedLine then []
  else if isHeading trimmedLine then
    let headingLevel := getHeadingLevel trimmedLine in
    [{| text := trimmedLine;
        bold := true;
        size := getHeadingSize headingLevel;
        heading := Some headingLevel;
        spacing_after := 200 |}]
  else
    [{| text := trimmedLine;
        bold := false;
        size := 24;
        heading := None;
        spacing_after := 200 |}].

Definition parseTextToParagraphs (text : jstring) : list Paragraph :=
  let lines :=
    filter (fun line => negb (is_empty (trim line))) (split_on "010" text) in
  fold_left (fun paragraphs line => paragraphs ++ paragraph_of_line line)
            lines [].

Definition isValidEmail (email : jstring) : bool := test Parser.emailRegex email.

Definition isValidDate (h : Host) (dateString : jstring) : bool :=
  date_parses h dateString.

(** [!p.value || p.value.trim() === ""] *)
Definition unfilled (p : Placeholder) : bool :=
  match value p with
  | Some (c :: v) => is_empty (trim (c :: v))
  | _ => true
  end.

Definition check_filled (h : Host) (errors : list jstring) (p : Placeholder)
  : list jstring :=
  match value p with
  | Some (c :: v) =>
      if negb (is_empty (trim (c :: v))) then
        match type p with
        | TEmail =>
            if negb (isValidEmail (c :: v))
            then errors ++ [label p ++ js " contains an invalid email address"]
            else errors
        | TNumber =>
            if isNaN_Number (c :: v)
            then errors ++ [label p ++ js " contains an invalid number"]
            else errors
        | TDate =>
            if negb (isValidDate h (c :: v))
            then errors ++ [label p ++ js " contains an invalid date"]
            else errors
        | TText => errors
        end
      else errors
  | _ => errors
  end.

Definition validateForDownload (h : Host) (phs : list Placeholder)
  : ValidationResult :=
  let requiredPlaceholders := filter required phs in
  let unfilledRequired := filter unfilled requiredPlaceholders in
  let errors0 :=
    if 0 <? length unfilledRequired
    then [decimal (length unfilledRequired)
            ++ js " required field(s) are still empty: "
            ++ join (js ", ") (map label unfilledRequired)]
    else [] in
  let errors := fold_left (check_filled h) phs errors0 in
  {| isValid := length errors =? 0; errors := errors |}.

End Download.

(* ================================================================= *)
(** ** services/apiService.ts *)

Module Api.

(** The fields of a browser [File] the upload validation reads. *)
Record File : Type := {
  name : jstring;
  size : N;
  type : jstring
}.

Definition maxSize : N := 10 * 1024 * 1024.

Definition allowedTypes : list jstring :=
  [js "application/vnd.openxmlformats-officedocument.wordprocessingml.document";
   js "application/msword"].

Definition validateDocumentUpload (file : option File) : ValidationResult :=
  let errors :=
    match file with
    | None => [js "No file provided"]
    | Some f =>
        (if (maxSize <? size f)%N then [js "File size exceeds 10MB limit"] else [])
        ++ (if negb (existsb (str_eqb (type f)) allowedTypes)
            then [js "Only .docx and .doc files are supported"] else [])
        ++ (if 255 <? length (name f) then [js "Filename is too long"] else [])
    end in
  {| isValid := length errors =? 0; errors := errors |}.

End Api.

(* ================================================================= *)
(** ** The preview component: the highlight view *)

Module Preview.

Definition quote : ascii := "034".

(** The replacement template of the highlight, the label interpolated. *)
Definition marker (label : jstring) : jstring :=
  js "<span class=" ++ [quote] ++ js "unfilled-placeholder" ++ [quote]
  ++ js " title=" ++ [quote] ++ js "Unfilled: " ++ label ++ [quote]
  ++ js ">$1</span>".

(** [!placeholder.value || placeholder.value.trim() === ''] *)
Definition unfilled (p : Placeholder) : bool :=
  match value p with
  | Some (c :: v) => is_empty (trim (c :: v))
  | _ => true
  end.

Definition highlight_one (highlightedContent : jstring) (p : Placeholder)
  : option jstring :=
  if unfilled p then
    match RegExp (js "(" ++ Parser.escape (originalText p) ++ js ")") with
    | Some regex => Some (replace regex highlightedContent (marker (label p)))
    | None => None
    end
  else Some highlightedContent.

Fixpoint highlight_each (phs : list Placeholder) (highlightedContent : jstring)
  : option jstring :=
  match phs with
  | [] => Some highlightedContent
  | p :: tl =>
      match highlight_one highlightedContent p with
      | Some c' => highlight_each tl c'
      | None => None
      end
  end.

Definition highlightUnfilledPlaceholders (phs : list Placeholder)
           (content : jstring) : option jstring :=
  highlight_each phs content.

End Preview.

(* ================================================================= *)
(** ** Literal substitution, as the specification words it *)

(** Every occurrence of the non-empty text [p] in [s], scanned from the
    left without overlap, replaced by [v]; [skip] counts the code units
    of an occurrence still to be passed over. *)
Fixpoint subst_all (p v : jstring) (skip : nat) (s : jstring) : jstring :=
  match s with
  | [] => []
  | c :: tl =>
      match skip with
      | S k => subst_all p v k tl
      | 0 =>
          if starts_with p s then v ++ subst_all p v (length p - 1) tl
          else c :: subst_all p v 0 tl
      end
  end.

(** The empty text occurs before every code unit and at the end. *)
Fixpoint insert_everywhere (v s : jstring) : jstring :=
  match s with
  | [] => v
  | c :: tl => v ++ c :: insert_everywhere v tl
  end.

Definition replace_occurrences (p v s : jstring) : jstring :=
  match p with
  | [] => insert_everywhere v s
  | _ :: _ => subst_all p v 0 s
  end.


(** Nullable patterns: the ones that can match the empty text. *)
Fixpoint nullable (r : regex) : bool :=
  match r with
  | Chr _ | Plus _ => false
  | Star _ | Empty | Bol | Eol => true
  | Cat r1 r2 => nullable r1 && nullable r2
  | Group _ r0 => nullable r0
  end.

(** Equality of two placeholders in every field but [id]. *)
Definition same_up_to_id (p q : Placeholder) : Prop :=
  label p = label q /\ originalText p = originalText q /\
  value p = value q /\ type p = type q /\ required p = required q /\
  description p = description q.

(** The order a collation induces on placeholders by their labels. *)
Definition label_le (h : Host) (p q : Placeholder) : Prop :=
  (localeCompare h (label p) (label q) <= 0)%Z.

(** A collation is consistent when it compares any two texts one way or
    the other and does so transitively. *)
Definition collation_total (h : Host) : Prop :=
  forall a b, (localeCompare h a b <= 0)%Z \/ (localeCompare h b a <= 0)%Z.

Definition collation_transitive (h : Host) : Prop :=
  forall a b c, (localeCompare h a b <= 0)%Z -> (localeCompare h b c <= 0)%Z ->
                (localeCompare h a c <= 0)%Z.

(** Comparison of two texts by their code units, a sample collation. *)
Fixpoint code_unit_compare (a b : jstring) : Z :=
  match a, b with
  | [], [] => 0
  | [], _ :: _ => -1
  | _ :: _, [] => 1
  | x :: a', y :: b' =>
      if code x <? code y then -1
      else if code y <? code x then 1
      else code_unit_compare a' b'
  end.



(** The metadata rules of the specification, on the normalized token. *)
Definition normalized_token (text : jstring) : jstring :=
  trim (map (fun c => if is_char "_" c || is_char "-" c then " "%char else c)
            text).

Definition inferred_type (lowerText : jstring) : PlaceholderType :=
  if includes (js "date") lowerText || includes (js "time") lowerText
  then TDate
  else if includes (js "email") lowerText || includes (js "e-mail") lowerText
  then TEmail
  else if includes (js "number") lowerText || includes (js "amount") lowerText
          || includes (js "price") lowerText || includes (js "cost") lowerText
  then TNumber
  else TText.

Definition inferred_required (lowerText : jstring) : bool :=
  negb (includes (js "optional") lowerText
        || includes (js "if applicable") lowerText).

(** Each space-delimited word capitalized: a code unit at the start of the
    text or after a space is put in upper case, any other in lower case. *)
Fixpoint capitalize_from (word_start : bool) (s : jstring) : jstring :=
  match s with
  | [] => []
  | c :: tl =>
      (if word_start then upper_char c else lower_char c)
        :: capitalize_from (is_char " " c) tl
  end.

Definition capitalize_words (s : jstring) : jstring := capitalize_from true s.

(** The order a comparator induces. *)
Definition le_by (A : Type) (cmp : A -> A -> Z) (a b : A) : Prop :=
  (cmp a b <= 0)%Z.

(** Two states of an extraction that differ in identifiers only. *)
Definition state_sim (a b : Parser.ExtractState) : Prop :=
  Parser.foundPlaceholders a = Parser.foundPlaceholders b /\
  Forall2 same_up_to_id (Parser.placeholders a) (Parser.placeholders b).

Definition option_sim (a b : option Parser.ExtractState) : Prop :=
  match a, b with
  | Some x, Some y => state_sim x y
  | None, None => True
  | _, _ => False
  end.

(** A sample host (collation by code units, a date parser that accepts
    the texts starting with a digit) and a sample world. *)
Definition sample_host : Host :=
  {| localeCompare := code_unit_compare;
     date_parses := fun s => match s with c :: _ => is_digit c | [] => false end |}.

Definition sample_world : World :=
  {| stamp := fun k => js "17000000000" ++ decimal k;
     nonce := fun k => js "k3j9x0q2" ++ decimal (k mod 10);
     reads := 0 |}.

(** The update the application applies when the user supplies a value. *)
Definition with_value (v : jstring) (p : Placeholder) : Placeholder :=
  {| id := id p; label := label p; originalText := originalText p;
     value := Some v; type := type p; required := required p;
     description := description p |}.

Definition supply (orig v : jstring) (p : Placeholder) : Placeholder :=
  if str_eqb (originalText p) orig then with_value v p else p.

(** A placeholder as the application holds it, for the examples. *)
Definition field (lbl orig : jstring) (v : option jstring)
           (t : PlaceholderType) (req : bool) : Placeholder :=
  {| id := js "placeholder_0_k3j9x0q2a"; label := lbl; originalText := orig;
     value := v; type := t; required := req; description := None |}.

(** The per-field rules of validation, in the words of the specification:
    a required placeholder is missing when its value is absent, empty or
    white space only; a type error needs a non-empty value that fails the
    check of the placeholder type. *)
Definition nonempty_value (p : Placeholder) : bool :=
  match value p with
  | Some (_ :: _) => true
  | _ => false
  end.

Definition missing_required (p : Placeholder) : bool :=
  required p && Parser.blank (value p).

Definition fails_type_check (h : Host) (p : Placeholder) : bool :=
  match value p with
  | Some v =>
      match type p with
      | TEmail => negb (Parser.isValidEmail v)
      | TNumber => isNaN_Number v
      | TDate => negb (date_parses h v)
      | TText => false
      end
  | None => false
  end.

Definition type_error (h : Host) (p : Placeholder) : bool :=
  nonempty_value p && fails_type_check h p.

Definition type_message (t : PlaceholderType) : jstring :=
  match t with
  | TEmail => js " must be a valid email address"
  | TNumber => js " must be a valid number"
  | TDate => js " must be a valid date"
  | TText => []
  end.

(** What one placeholder contributes to the error list. *)
Definition field_errors (h : Host) (p : Placeholder) : list jstring :=
  if missing_required p then [label p ++ js " is required"]
  else if type_error h p then [label p ++ type_message (type p)]
  else [].

(** The number of errors if both checks were applied to every field. *)
Definition independent_error_count (h : Host) (phs : list Placeholder) : nat :=
  length (filter missing_required phs) + length (filter (type_error h) phs).

(** An optional placeholder holding a non-empty text of white space only. *)
Definition optional_whitespace (p : Placeholder) : bool :=
  negb (required p) && nonempty_value p && Parser.blank (value p).

Definition download_message (t : PlaceholderType) : jstring :=
  match t with
  | TEmail => js " contains an invalid email address"
  | TNumber => js " contains an invalid number"
  | TDate => js " contains an invalid date"
  | TText => []
  end.

(** What one placeholder contributes to the errors of the download check,
    the summary of the missing fields apart. *)
Definition download_field_errors (h : Host) (p : Placeholder) : list jstring :=
  if negb (Download.unfilled p) && fails_type_check h p
  then [label p ++ download_message (type p)]
  else [].

(** A key of the seen set with the placeholder created for it. *)
Definition key_of (k : jstring) (p : Placeholder) : Prop :=
  exists text,
    k = toLowerCase text /\
    label p = capitalize_words (normalized_token text) /\
    type p = inferred_type (toLowerCase (normalized_token text)).

(** The seen set holds each key once and pairs with the placeholders. *)
Definition keyed (st : Parser.ExtractState) : Prop :=
  NoDup (Parser.foundPlaceholders st) /\
  Forall2 key_of (Parser.foundPlaceholders st) (Parser.placeholders st).

(** A pattern whose last item before the end anchor is a class [q]: a
    match of it ends the subject on a code unit of [q]. *)
Inductive tail_class (q : ascii -> bool) : regex -> Prop :=
| tail_chr : tail_class q (Chr q +++ Eol)
| tail_plus : tail_class q (Plus q +++ Eol)
| tail_cat : forall r1 r2, tail_class q r2 -> tail_class q (r1 +++ r2).

(** Sizes in points: the document library counts in half-points. *)
Definition points (half_points : nat) : nat := half_points / 2.

Definition b2n (b : bool) : nat := if b then 1 else 0.

(** The template of the highlight up to the reference to the capture. *)
Definition marker_open (label : jstring) : jstring :=
  js "<span class=" ++ [Preview.quote] ++ js "unfilled-placeholder"
  ++ [Preview.quote] ++ js " title=" ++ [Preview.quote] ++ js "Unfilled: "
  ++ label ++ [Preview.quote] ++ js ">".

(** What the escaping of [fillPlaceholders] does to one code unit. *)
Definition escape_char (c : ascii) : jstring :=
  if is_syntax c then ["\"%char; c] else [c].

(* ================================================================= *)
(** * More of the code: what the properties below are stated with *)

(* ================================================================= *)
(** ** What a pattern accepts

    [acc at0 r w after cs cs']: the pattern [r] accepts the text [w] when
    [after] is what follows it in the subject, [at0] tells whether [w]
    starts at index 0, and the captures go from [cs] to [cs']. *)

Inductive acc :
  bool -> regex -> jstring -> jstring ->
  list (nat * jstring) -> list (nat * jstring) -> Prop :=
| acc_chr : forall at0 p c after cs,
    p c = true -> acc at0 (Chr p) [c] after cs cs
| acc_star : forall at0 p w after cs,
    forallb p w = true -> acc at0 (Star p) w after cs cs
| acc_plus : forall at0 p c w after cs,
    forallb p (c :: w) = true -> acc at0 (Plus p) (c :: w) after cs cs
| acc_cat : forall at0 r1 r2 w1 w2 after cs cs1 cs2,
    acc at0 r1 w1 (w2 ++ after) cs cs1 ->
    acc (at0 && is_empty w1) r2 w2 after cs1 cs2 ->
    acc at0 (r1 +++ r2) (w1 ++ w2) after cs cs2
| acc_empty : forall at0 after cs, acc at0 Empty [] after cs cs
| acc_group : forall at0 i r w after cs cs',
    acc at0 r w after cs cs' ->
    acc at0 (Group i r) w after cs ((i, w) :: cs')
| acc_bol : forall after cs, acc true Bol [] after cs cs
| acc_eol : forall at0 cs, acc at0 Eol [] [] cs cs.

(** The code units an address part may hold: no white space and no at sign. *)
Definition address_char (c : ascii) : bool :=
  negb (is_space c || is_char "@" c).

(** The texts the four placeholder patterns match, with their inner
    token: double curly, square (upper case), double angle, single curly. *)
Definition token_shape (orig inner : jstring) : Prop :=
  inner <> [] /\
  ((orig = js "{{" ++ inner ++ js "}}" /\
    forallb (none_of "}") inner = true) \/
   (orig = js "[" ++ inner ++ js "]" /\
    forallb (fun c => is_upper c || is_char "_" c || is_space c) inner = true) \/
   (orig = js "<<" ++ inner ++ js ">>" /\
    forallb (none_of ">") inner = true) \/
   (orig = js "{" ++ inner ++ js "}" /\
    forallb (none_of "}") inner = true)).

(** A key of the seen set and the placeholder detected for it in
    [content]. *)
Definition detected_from (content k : jstring) (p : Placeholder) : Prop :=
  value p = None /\
  (exists a b, content = a ++ originalText p ++ b) /\
  exists inner,
    token_shape (originalText p) inner /\ k = toLowerCase (trim inner).

Definition detected (content : jstring) (st : Parser.ExtractState) : Prop :=
  NoDup (Parser.foundPlaceholders st) /\
  Forall2 (detected_from content)
          (Parser.foundPlaceholders st) (Parser.placeholders st).

(** A text without any opening delimiter of a placeholder. *)
Definition no_opening (content : jstring) : bool :=
  forallb (fun c => negb (is_char "{" c || is_char "[" c || is_char "<" c))
          content.

Definition is_dash (c : ascii) : bool := is_char "_" c || is_char "-" c.

(** The code units whose upper-case form is one code unit below 256: all
    but the micro sign (181), the sharp s (223, which becomes [SS]) and
    the y with diaeresis (255). *)
Definition single_unit_upper (c : ascii) : bool :=
  negb ((code c =? 181) || (code c =? 223) || (code c =? 255)).


(** The content the preview shows: the filled content, with the unfilled
    placeholders highlighted when the toggle is on. *)
Definition displayContent (showPlaceholders : bool)
           (phs : list Placeholder) (originalContent : jstring)
  : option jstring :=
  match Parser.fillPlaceholders originalContent phs with
  | Some filledContent =>
      if showPlaceholders
      then Preview.highlightUnfilledPlaceholders phs filledContent
      else Some filledContent
  | None => None
  end.

(** The summary the download check opens with when required fields are
    missing: their number and their labels. *)
Definition missing_summary (phs : list Placeholder) : list jstring :=
  match filter missing_required phs with
  | [] => []
  | missing =>
      [decimal (length missing) ++ js " required field(s) are still empty: "
         ++ join (js ", ") (map label missing)]
  end.

(** [String.prototype.replace] with a pattern without the [g] flag: the
    first match only. *)
Definition replace_first (r : regex) (s tpl : jstring) : jstring :=
  match search r true s with
  | None => s
  | Some (sk, st) =>
      sk ++ expand (rev (taken st)) sk (rest st) (ngroups r) (caps st) tpl
         ++ rest st
  end.

(* ================================================================= *)
(** ** The application shell: the name of the downloaded file *)

Module App.

Definition extension_char (c : ascii) : bool :=
  negb (is_char "/" c || is_char "." c).

(** [/\.[^/.]+$/] *)
Definition extension : regex := lit "." +++ Plus extension_char +++ Eol.

(** The [download] attribute set by [handleDownload]. *)
Definition completedFilename (original_filename : jstring) : jstring :=
  replace_first extension original_filename [] ++ js "_completed.docx".

End App.

(* ================================================================= *)
(** ** services/apiService.ts: the request loop *)

(** The fetch is the outside world: [server] gives, for each retry count,
    what awaiting that fetch comes to.  The configuration is the one in
    force when the request starts ([configure] is not called while it
    runs), and [retries] is a natural number when it is set. *)

Module Request.

Record ApiConfig : Type := {
  baseUrl : jstring;
  apiKey : option jstring;
  timeout : option N;
  retries : option nat
}.

(** What awaiting one [fetch] comes to: a response, with its status and
    its body in hand, or a rejection with an error, which is an abort
    (the timer or [cancelRequests]) when its name is [AbortError]. *)
Inductive outcome : Type :=
| Responded (status : nat) (body : jstring)
| Rejected (aborted : bool) (message : jstring).

Record ApiResponse (T : Type) : Type := {
  success : bool;
  data : option T;
  error : option jstring
}.

(** What a request does that can be seen from outside. *)
Inductive event : Type :=
| Fetched (url : jstring)
| Delayed (ms : nat).

Section Request.
Variable T : Type.

(** [response.json()]: the value read, or the message of the error
    raised. *)
Variable json : jstring -> T + jstring.

(** What looking for a message in the body of an error response comes to
    ([detail[0].msg], else [message], the body itself when it is not
    JSON; the message of an error raised on the way): [None] when there
    is nothing of the kind. *)
Variable error_detail : jstring -> option jstring.

Variable config : ApiConfig.

(** The outcome of the fetch made with each retry count. *)
Variable server : nat -> outcome.

Definition succeeded (d : T) : ApiResponse T :=
  {| success := true; data := Some d; error := None |}.

Definition failed (message : jstring) : ApiResponse T :=
  {| success := false; data := None; error := Some message |}.

(** [response.ok] *)
Definition ok (status : nat) : bool := (200 <=? status) && (status <=? 299).

(** [this.config.retries || 0] *)
Definition retries_or_0 : nat :=
  match retries config with Some n => n | None => 0 end.

(** The end of a call that does not retry. *)
Definition settle (o : outcome) : ApiResponse T :=
  match o with
  | Rejected aborted message =>
      if aborted then failed (js "Request cancelled") else failed message
  | Responded status body =>
      if negb (ok status) then
        failed match error_detail body with
               | Some message => message
               | None => js "HTTP " ++ decimal status
               end
      else
        match json body with
        | inl d => succeeded d
        | inr message => failed message
        end
  end.

(** [request(endpoint, options, retryCount)]; [None] is a recursion that
    has not ended within [fuel] calls. *)
Fixpoint request_from (fuel : nat) (endpoint : jstring) (retryCount : nat)
  : option (ApiResponse T * list event) :=
  match fuel with
  | 0 => None
  | S f =>
      let url := baseUrl config ++ endpoint in
      match server retryCount with
      | Responded status body =>
          if negb (ok status) && (500 <=? status)
             && (retryCount <? retries_or_0)
          then
            match request_from f endpoint (S retryCount) with
            | Some (r, evs) =>
                Some (r, Fetched url :: Delayed (2 ^ retryCount * 1000) :: evs)
            | None => None
            end
          else Some (settle (Responded status body), [Fetched url])
      | Rejected aborted message =>
          Some (settle (Rejected aborted message), [Fetched url])
      end
  end.

Definition request (endpoint : jstring)
  : option (ApiResponse T * list event) :=
  request_from (S retries_or_0) endpoint 0.

End Request.

(** A response that makes the request try again (below the cap). *)
Definition server_error (o : outcome) : bool :=
  match o with
  | Responded status _ => 500 <=? status
  | Rejected _ _ => false
  end.

(** The events of a request that ends with its [k]-th retry. *)
Fixpoint schedule (url : jstring) (from k : nat) : list event :=
  match k with
  | 0 => [Fetched url]
  | S k' => Fetched url :: Delayed (2 ^ from * 1000) :: schedule url (S from) k'
  end.

Definition fetches (evs : list event) : nat :=
  length (filter (fun e => match e with Fetched _ => true | _ => false end) evs).

Fixpoint waited (evs : list event) : nat :=
  match evs with
  | [] => 0
  | Delayed ms :: tl => ms + waited tl
  | Fetched _ :: tl => waited tl
  end.

End Request.

(** A sample configuration (the defaults of the service) and a sample
    server that answers 503, then 502, then 200. *)
Definition sample_config : Request.ApiConfig :=
  {| Request.baseUrl := js "http://localhost:8000";
     Request.apiKey := None;
     Request.timeout := Some 30000%N;
     Request.retries := Some 3 |}.

Definition sample_server (retryCount : nat) : Request.outcome :=
  match retryCount with
  | 0 => Request.Responded 503 (js "busy")
  | 1 => Request.Responded 502 (js "bad gateway")
  | _ => Request.Responded 200 (js "{}")
  end.

(* ================================================================= *)
(** * Properties *)

Unset Implicit Arguments.

(** ** Texts *)

Lemma str_eqb_eq a b : str_eqb a b = true <-> a = b.
Proof.
  revert b. induction a as [|x a IH]; intros [|y b]; cbn [str_eqb];
    try (split; (reflexivity || discriminate)).
  rewrite andb_true_iff, Ascii.eqb_eq, IH.
  split; [intros [-> ->]; reflexivity|intros H; injection H; auto].
Qed.

(** ** The replacement loop *)

Lemma search_miss r bol c tl :
  rmatch bol r (MState [] (c :: tl) []) = [] ->
  search r bol (c :: tl) =
  match search r false tl with
  | Some (sk, st) => Some (c :: sk, st)
  | None => None
  end.
Proof. intros H. cbn [search]. rewrite H. reflexivity. Qed.

Lemma search_hit r bol s st l :
  rmatch bol r (MState [] s []) = st :: l ->
  search r bol s = Some ([], st).
Proof. intros H. destruct s; cbn [search]; rewrite H; reflexivity. Qed.

Lemma replace_loop_skip f r tpl b c tl :
  rmatch (is_empty b) r (MState [] (c :: tl) []) = [] ->
  replace_loop (S f) r tpl b (c :: tl)
  = c :: replace_loop (S f) r tpl (c :: b) tl.
Proof.
  intros H. cbn [replace_loop]. rewrite (search_miss _ _ _ _ H).
  cbn [is_empty].
  destruct (search r false tl) as [[sk st]|]; [|reflexivity].
  cbn [rev]. rewrite <- !app_assoc. reflexivity.
Qed.

Lemma replace_loop_hit f r tpl b s st l :
  rmatch (is_empty b) r (MState [] s []) = st :: l ->
  replace_loop (S f) r tpl b s
  = expand (rev (taken st)) (rev b) (rest st) (ngroups r) (caps st) tpl
    ++ match taken st, rest st with
       | [], [] => []
       | [], c :: tl => c :: replace_loop f r tpl (c :: b) tl
       | _ :: _, _ => replace_loop f r tpl (taken st ++ b) (rest st)
       end.
Proof.
  intros H. cbn [replace_loop]. rewrite (search_hit _ _ _ _ _ H). reflexivity.
Qed.

(** Replacing the code units of one class, one at a time. *)
Lemma replace_class p tpl (f : ascii -> jstring) :
  (forall c before after, expand [c] before after 0 [] tpl = f c) ->
  forall s fuel b, length s < fuel ->
    replace_loop fuel (Chr p) tpl b s
    = flat_map (fun c => if p c then f c else [c]) s.
Proof.
  intros Hf. induction s as [|c tl IH]; intros fuel b Hlen.
  - destruct fuel; [inversion Hlen|]. reflexivity.
  - destruct fuel as [|fuel]; [inversion Hlen|]. cbn [length] in Hlen.
    cbn [flat_map]. destruct (p c) eqn:Hp.
    + rewrite (replace_loop_hit _ _ _ _ _ (MState [c] tl []) []).
      2:{ cbn. rewrite Hp. reflexivity. }
      cbn [taken rest caps rev app ngroups].
      rewrite Hf. f_equal. apply IH. lia.
    + rewrite replace_loop_skip.
      2:{ cbn. rewrite Hp. reflexivity. }
      cbn [app]. f_equal. apply IH. cbn [length]. lia.
Qed.

Lemma escape_flat_map s : Parser.escape s = flat_map escape_char s.
Proof.
  unfold Parser.escape, replace, Parser.syntax_character.
  rewrite (replace_class is_syntax (js "\$&") (fun c => ["\"%char; c])).
  - reflexivity.
  - intros c before after. reflexivity.
  - lia.
Qed.

Lemma underscore_dash_to_space s :
  replace Parser.underscore_or_dash s (js " ")
  = map (fun c => if is_char "_" c || is_char "-" c then " "%char else c) s.
Proof.
  unfold replace, Parser.underscore_or_dash.
  rewrite (replace_class _ (js " ") (fun _ => [" "%char])).
  - induction s as [|c tl IH]; [reflexivity|].
    cbn [flat_map map]. rewrite IH.
    destruct (is_char "_" c || is_char "-" c); reflexivity.
  - intros; reflexivity.
  - lia.
Qed.

(** ** Escaping and the [RegExp] constructor *)

Lemma not_syntax_plain c :
  is_syntax c = false ->
  is_char "\" c = false /\ is_char "(" c = false /\ is_char ")" c = false.
Proof.
  unfold is_syntax, is_char. cbn [js list_ascii_of_string existsb].
  intros H. rewrite !orb_false_iff in H.
  repeat match goal with H : _ /\ _ |- _ => destruct H end.
  rewrite (Ascii.eqb_sym "\"%char), (Ascii.eqb_sym "("%char),
          (Ascii.eqb_sym ")"%char).
  auto.
Qed.

Lemma tokenize_escape s toks rest_src :
  tokenize rest_src = Some toks ->
  tokenize (flat_map escape_char s ++ rest_src) = Some (map TLit s ++ toks).
Proof.
  intros Hrest. induction s as [|c tl IH]; [exact Hrest|].
  cbn [flat_map map]. unfold escape_char at 1.
  destruct (is_syntax c) eqn:Hc.
  - cbn [app tokenize]. cbn [is_char Ascii.eqb Bool.eqb].
    rewrite Hc, IH. reflexivity.
  - destruct (not_syntax_plain _ Hc) as (H1 & H2 & H3).
    cbn [app tokenize]. rewrite H1, H2, H3, Hc, IH. reflexivity.
Qed.

Lemma build_literals s toks cur stack next :
  build (map TLit s ++ toks) cur stack next
  = build toks (rev (map lit s) ++ cur) stack next.
Proof.
  revert cur. induction s as [|c tl IH]; intros cur; [reflexivity|].
  cbn [map app build]. rewrite IH. cbn [rev]. rewrite <- app_assoc.
  reflexivity.
Qed.

(** The pattern built from an escaped text is the literal pattern of the
    text: no code unit of it is read as pattern syntax. *)
Lemma RegExp_escape s : RegExp (Parser.escape s) = Some (lits s).
Proof.
  unfold RegExp. rewrite escape_flat_map.
  rewrite <- (app_nil_r (flat_map escape_char s)).
  rewrite (tokenize_escape s [] []) by reflexivity.
  rewrite build_literals. cbn [build]. rewrite app_nil_r, rev_involutive.
  reflexivity.
Qed.

Lemma RegExp_group_escape s :
  RegExp (js "(" ++ Parser.escape s ++ js ")")
  = Some (Group 1 (lits s) +++ Empty).
Proof.
  unfold RegExp. rewrite escape_flat_map.
  cbn [js list_ascii_of_string app tokenize is_char Ascii.eqb Bool.eqb].
  rewrite (tokenize_escape s [TClose] [")"%char]) by reflexivity.
  cbn [option_map build]. rewrite build_literals. cbn [build].
  rewrite app_nil_r, rev_involutive. reflexivity.
Qed.

(** ** Matching a literal pattern *)


Lemma rmatch_lits bol p tk s cs :
  rmatch bol (lits p) (MState tk s cs)
  = if starts_with p s
    then [MState (rev p ++ tk) (skipn (length p) s) cs]
    else [].
Proof.
  revert tk s. induction p as [|a p IH]; intros tk s; [reflexivity|].
  change (lits (a :: p)) with (lit a +++ lits p).
  cbn [rmatch rest taken caps lit]. destruct s as [|c tl]; [reflexivity|].
  cbn [starts_with]. unfold is_char.
  destruct (Ascii.eqb a c) eqn:Hac; [|reflexivity].
  apply Ascii.eqb_eq in Hac. subst c.
  cbn [flat_map andb]. rewrite IH, app_nil_r.
  destruct (starts_with p tl); [|reflexivity].
  cbn [rev length skipn]. rewrite <- app_assoc. reflexivity.
Qed.





(** ** Filling *)

Lemma fill_one_literal content p :
  Parser.fill_one content p
  = Some match value p with
         | Some (c :: v) => replace (lits (originalText p)) content (c :: v)
         | _ => content
         end.
Proof.
  unfold Parser.fill_one. destruct (value p) as [[|c v]|]; try reflexivity.
  rewrite RegExp_escape. reflexivity.
Qed.


Lemma fillPlaceholders_total content phs :
  exists out, Parser.fillPlaceholders content phs = Some out.
Proof.
  unfold Parser.fillPlaceholders. revert content.
  induction phs as [|p tl IH]; intros content; cbn [Parser.fill_each].
  - eauto.
  - rewrite fill_one_literal. apply IH.
Qed.

(** ** Matches consume the subject *)

Lemma greedy_consumes p tk rs cs st' :
  In st' (greedy p tk rs cs) ->
  rev (taken st') ++ rest st' = rev tk ++ rs /\ caps st' = cs /\
  (forall c0 tk0, tk = c0 :: tk0 -> p c0 = true ->
     exists c1 tk1, taken st' = c1 :: tk1 /\ p c1 = true).
Proof.
  assert (Hhere : forall tk rs,
    let st := MState tk rs cs in
    rev (taken st) ++ rest st = rev tk ++ rs /\ caps st = cs /\
    (forall c0 tk0, tk = c0 :: tk0 -> p c0 = true ->
       exists c1 tk1, taken st = c1 :: tk1 /\ p c1 = true)).
  { intros tk0 rs0 st. subst st. cbn [taken rest caps].
    repeat split. intros c0 tk1 -> Hc. eauto. }
  revert tk. induction rs as [|c tl IH]; intros tk H; cbn [greedy] in H.
  - destruct H as [<-|[]]. apply Hhere.
  - destruct (p c) eqn:Hc.
    + apply in_app_or in H. destruct H as [H|[<-|[]]]; [|apply Hhere].
      apply IH in H. destruct H as (H1 & H2 & H3).
      cbn [rev] in H1. rewrite <- app_assoc in H1. cbn [app] in H1.
      repeat split; try assumption.
      intros c0 tk0 _ _. apply (H3 c tk); [reflexivity|exact Hc].
    + destruct H as [<-|[]]. apply Hhere.
Qed.

(** A match consumes a prefix of what was left: taken and rest together
    always spell the same text. *)
Lemma rmatch_consumes r :
  forall bol st st', In st' (rmatch bol r st) ->
    rev (taken st') ++ rest st' = rev (taken st) ++ rest st.
Proof.
  induction r as [p|p|p|r1 IH1 r2 IH2| |i r0 IH| |]; intros bol st st' H;
    cbn [rmatch] in H.
  - destruct (rest st) as [|c tl]; [destruct H|].
    destruct (p c); [|destruct H]. destruct H as [<-|[]].
    cbn [taken rest rev]. rewrite <- app_assoc. reflexivity.
  - apply greedy_consumes in H. apply H.
  - destruct (rest st) as [|c tl]; [destruct H|].
    destruct (p c); [|destruct H]. apply greedy_consumes in H.
    destruct H as [H _]. rewrite H. cbn [rev]. rewrite <- app_assoc.
    reflexivity.
  - apply in_flat_map in H. destruct H as (mid & Hmid & Hst').
    rewrite (IH2 _ _ _ Hst'). apply (IH1 _ _ _ Hmid).
  - destruct H as [<-|[]]. reflexivity.
  - apply in_map_iff in H. destruct H as (st0 & <- & H0).
    apply IH in H0. cbn [taken rest rev app] in *.
    rewrite rev_app_distr, <- app_assoc, H0. reflexivity.
  - destruct (bol && is_empty (taken st)); [|destruct H].
    destruct H as [<-|[]]. reflexivity.
  - destruct (is_empty (rest st)); [|destruct H].
    destruct H as [<-|[]]. reflexivity.
Qed.

(** A successful search splits the subject into what was skipped, what
    was matched and what is left. *)
Lemma search_splits r s :
  forall bol sk st, search r bol s = Some (sk, st) ->
    s = sk ++ rev (taken st) ++ rest st.
Proof.
  induction s as [|c tl IH]; intros bol sk st H; cbn [search] in H.
  - destruct (rmatch bol r (MState [] [] [])) as [|st0 l] eqn:Hm;
      [discriminate|].
    injection H as <- <-.
    assert (Hin : In st0 (rmatch bol r (MState [] [] [])))
      by (rewrite Hm; left; reflexivity).
    apply rmatch_consumes in Hin. symmetry. exact Hin.
  - destruct (rmatch bol r (MState [] (c :: tl) [])) as [|st0 l] eqn:Hm.
    + destruct (search r false tl) as [[sk0 st0]|] eqn:Hs; [|discriminate].
      injection H as <- <-. cbn [app]. f_equal. eapply IH; eauto.
    + injection H as <- <-.
      assert (Hin : In st0 (rmatch bol r (MState [] (c :: tl) [])))
        by (rewrite Hm; left; reflexivity).
      apply rmatch_consumes in Hin. symmetry. exact Hin.
Qed.

(** The bound of the replacement loop is never reached: any two bounds
    above the length of the subject give the same result. *)
Lemma replace_loop_fuel r tpl :
  forall f1 f2 b s, length s < f1 -> length s < f2 ->
    replace_loop f1 r tpl b s = replace_loop f2 r tpl b s.
Proof.
  induction f1 as [|f1 IH]; intros f2 b s H1 H2; [inversion H1|].
  destruct f2 as [|f2]; [inversion H2|]. cbn [replace_loop].
  destruct (search r (is_empty b) s) as [[sk st]|] eqn:Hs; [|reflexivity].
  apply search_splits in Hs.
  assert (Hlen : length s = length sk + (length (taken st) + length (rest st))).
  { rewrite Hs at 1. rewrite !length_app, length_rev. reflexivity. }
  do 2 f_equal.
  destruct (taken st) as [|t0 tk], (rest st) as [|c tl]; cbn [length] in Hlen;
    try reflexivity; try (f_equal; apply IH; cbn [length]; lia);
    apply IH; cbn [length]; lia.
Qed.


Lemma greedy_rest p tk rs cs st' :
  In st' (greedy p tk rs cs) -> length (rest st') <= length rs.
Proof.
  revert tk. induction rs as [|c tl IH]; intros tk H; cbn [greedy] in H.
  - destruct H as [<-|[]]. cbn. lia.
  - destruct (p c).
    + apply in_app_or in H. destruct H as [H|[<-|[]]].
      * apply IH in H. cbn [length]. lia.
      * cbn. lia.
    + destruct H as [<-|[]]. cbn. lia.
Qed.

Lemma rmatch_rest r :
  forall bol st st', In st' (rmatch bol r st) ->
    length (rest st') <= length (rest st) /\
    (nullable r = false -> length (rest st') < length (rest st)).
Proof.
  induction r as [p|p|p|r1 IH1 r2 IH2| |i r0 IH| |]; intros bol st st' H;
    cbn [rmatch nullable] in *.
  - destruct (rest st) as [|c tl]; [destruct H|].
    destruct (p c); [|destruct H]. destruct H as [<-|[]]. cbn. lia.
  - apply greedy_rest in H. split; [lia|discriminate].
  - destruct (rest st) as [|c tl]; [destruct H|].
    destruct (p c); [|destruct H]. apply greedy_rest in H. cbn [length]. lia.
  - apply in_flat_map in H. destruct H as (mid & Hmid & Hst').
    apply IH1 in Hmid. apply IH2 in Hst'. split; [lia|].
    intros Hn. apply andb_false_iff in Hn. destruct Hn as [Hn|Hn].
    + destruct Hmid as [_ Hlt]. specialize (Hlt Hn). lia.
    + destruct Hst' as [_ Hlt]. specialize (Hlt Hn). lia.
  - destruct H as [<-|[]]. split; [lia|discriminate].
  - apply in_map_iff in H. destruct H as (st0 & <- & H0).
    apply IH in H0. exact H0.
  - destruct (bol && is_empty (taken st)); [|destruct H].
    destruct H as [<-|[]]. split; [lia|discriminate].
  - destruct (is_empty (rest st)); [|destruct H].
    destruct H as [<-|[]]. split; [lia|discriminate].
Qed.

Lemma search_rest r s :
  forall bol sk st, search r bol s = Some (sk, st) ->
    nullable r = false -> length (rest st) < length s.
Proof.
  induction s as [|c tl IH]; intros bol sk st H Hn; cbn [search] in H.
  - destruct (rmatch bol r (MState [] [] [])) as [|st0 l] eqn:Hm;
      [discriminate|].
    injection H as _ <-.
    assert (Hin : In st0 (rmatch bol r (MState [] [] []))) by (rewrite Hm; left; reflexivity).
    apply rmatch_rest in Hin. destruct Hin as [_ Hlt]. exact (Hlt Hn).
  - destruct (rmatch bol r (MState [] (c :: tl) [])) as [|st0 l] eqn:Hm.
    + destruct (search r false tl) as [[sk0 st0]|] eqn:Hs; [|discriminate].
      injection H as _ <-. apply IH in Hs; [|assumption]. cbn [length]. lia.
    + injection H as _ <-.
      assert (Hin : In st0 (rmatch bol r (MState [] (c :: tl) []))) by (rewrite Hm; left; reflexivity).
      apply rmatch_rest in Hin. destruct Hin as [_ Hlt]. exact (Hlt Hn).
Qed.

Lemma exec_advances r cur m cur' :
  exec r cur = Some (m, cur') -> nullable r = false ->
  length (remaining cur') < length (remaining cur).
Proof.
  unfold exec. intros H Hn.
  destruct (search r (at_start cur) (remaining cur)) as [[sk st]|] eqn:Hs;
    [|discriminate].
  injection H as _ <-. cbn [remaining]. eapply search_rest; eauto.
Qed.

(** ** The extraction loops end *)

Lemma match_loop_total pattern :
  nullable pattern = false ->
  forall fuel cur st, length (remaining cur) < fuel ->
    exists st', Parser.match_loop fuel pattern cur st = Some st'.
Proof.
  intros Hn. induction fuel as [|f IH]; intros cur st Hlen; [inversion Hlen|].
  cbn [Parser.match_loop].
  destruct (exec pattern cur) as [[m cur']|] eqn:He; [|eauto].
  pose proof (exec_advances _ _ _ _ He Hn) as Hadv.
  destruct (Parser.has _ _).
  - apply IH. lia.
  - destruct (Parser.createPlaceholder _ _ _) as [ph w']. apply IH. lia.
Qed.

Lemma each_pattern_total patterns content :
  Forall (fun r => nullable r = false) patterns ->
  forall st, exists st', Parser.each_pattern patterns content st = Some st'.
Proof.
  induction 1 as [|r tl Hr _ IH]; intros st; cbn [Parser.each_pattern].
  - eauto.
  - destruct (match_loop_total r Hr (S (length content)) (Cursor true content) st)
      as [st1 H1]; [cbn; lia|].
    rewrite H1. apply IH.
Qed.

Lemma detect_total w content :
  exists st, Parser.detect w content = Some st.
Proof.
  unfold Parser.detect. apply each_pattern_total.
  unfold Parser.placeholderPatterns. repeat constructor.
Qed.

Lemma extractPlaceholders_total h w content :
  exists l, Parser.extractPlaceholders h w content = Some l.
Proof.
  unfold Parser.extractPlaceholders.
  destruct (detect_total w content) as [st ->]. cbn. eauto.
Qed.

(** ** Metadata of a placeholder *)

Lemma split_on_cons sep s : exists w ws, split_on sep s = w :: ws.
Proof.
  induction s as [|c tl (w & ws & IH)]; cbn [split_on]; [eauto|].
  destruct (Ascii.eqb c sep); [eauto|]. rewrite IH. eauto.
Qed.

Lemma join_cons sep (f : jstring -> jstring) w ws :
  join sep (map f (w :: ws)) = f w ++ flat_map (fun x => sep ++ f x) ws.
Proof.
  revert w. induction ws as [|y l IH]; intros w.
  - cbn. symmetry. apply app_nil_r.
  - change (join sep (map f (w :: y :: l)))
      with (f w ++ sep ++ join sep (map f (y :: l))).
    rewrite IH. cbn [flat_map]. rewrite <- app_assoc. reflexivity.
Qed.

Lemma capitalize_split s :
  forall w ws, split_on " " s = w :: ws ->
  forall b : bool,
    (if b then toUpperCase (firstn 1 w) ++ toLowerCase (skipn 1 w)
     else toLowerCase w)
    ++ flat_map (fun x => js " " ++
                   (toUpperCase (firstn 1 x) ++ toLowerCase (skipn 1 x))) ws
    = capitalize_from b s.
Proof.
  induction s as [|c tl IH]; intros w ws Hs b; cbn [split_on] in Hs.
  - injection Hs as <- <-. destruct b; reflexivity.
  - destruct (split_on_cons " " tl) as (w' & ws' & Htl). rewrite Htl in Hs.
    cbn [capitalize_from]. unfold is_char. rewrite (Ascii.eqb_sym " " c).
    destruct (Ascii.eqb c " ") eqn:Hc.
    + injection Hs as <- <-. apply Ascii.eqb_eq in Hc. subst c.
      cbn [flat_map]. rewrite <- (IH _ _ Htl true).
      destruct b; reflexivity.
    + injection Hs as <- <-. rewrite <- (IH _ _ Htl false).
      destruct b; reflexivity.
Qed.

(** [formatLabel] capitalizes each space-delimited word. *)
Lemma formatLabel_words s : Parser.formatLabel s = capitalize_words s.
Proof.
  unfold Parser.formatLabel, capitalize_words.
  destruct (split_on_cons " " s) as (w & ws & Hs). rewrite Hs.
  rewrite (join_cons (js " ")
             (fun word => toUpperCase (firstn 1 word) ++ toLowerCase (skipn 1 word))).
  apply (capitalize_split s w ws Hs true).
Qed.

Lemma cleanText_normalized text :
  trim (replace Parser.underscore_or_dash text (js " ")) = normalized_token text.
Proof. unfold normalized_token. rewrite underscore_dash_to_space. reflexivity. Qed.

(** The placeholder [createPlaceholder] returns, field by field. *)
Lemma createPlaceholder_fields w text orig :
  Parser.createPlaceholder w text orig =
  ({| id := fst (Parser.generateId w);
      label := capitalize_words (normalized_token text);
      originalText := orig;
      value := None;
      type := inferred_type (toLowerCase (normalized_token text));
      required := inferred_required (toLowerCase (normalized_token text));
      description :=
        Some match inferred_type (toLowerCase (normalized_token text)) with
             | TDate => js "Enter a date"
             | TEmail => js "Enter an email address"
             | TNumber => js "Enter a number"
             | TText => js "Enter text"
             end |},
   snd (Parser.generateId w)).
Proof.
  unfold Parser.createPlaceholder, inferred_type, inferred_required.
  rewrite cleanText_normalized, formatLabel_words.
  set (low := toLowerCase (normalized_token text)).
  rewrite negb_orb.
  destruct (includes (js "date") low || includes (js "time") low);
    [reflexivity|].
  destruct (includes (js "email") low || includes (js "e-mail") low);
    [reflexivity|].
  destruct (includes (js "number") low || includes (js "amount") low
            || includes (js "price") low || includes (js "cost") low);
    reflexivity.
Qed.

(** ** Sorting with a comparator *)

Section SortFacts.
Variable A : Type.
Variable cmp : A -> A -> Z.


Lemma insert_by_perm x l : Permutation (insert_by cmp x l) (x :: l).
Proof.
  induction l as [|y tl IH]; cbn [insert_by]; [reflexivity|].
  destruct (cmp x y <=? 0)%Z; [reflexivity|].
  rewrite IH. apply perm_swap.
Qed.

Lemma sort_by_perm l : Permutation (sort_by cmp l) l.
Proof.
  induction l as [|x tl IH]; cbn [sort_by fold_right]; [reflexivity|].
  fold (sort_by cmp tl). rewrite insert_by_perm, IH. reflexivity.
Qed.

Hypothesis cmp_total : forall a b, le_by cmp a b \/ le_by cmp b a.
Hypothesis cmp_trans :
  forall a b c, le_by cmp a b -> le_by cmp b c -> le_by cmp a c.

Lemma insert_by_sorted x l :
  StronglySorted (le_by cmp) l -> StronglySorted (le_by cmp) (insert_by cmp x l).
Proof.
  induction 1 as [|y tl Hs IH Hy]; cbn [insert_by].
  - repeat constructor.
  - destruct (cmp x y <=? 0)%Z eqn:Hxy.
    + apply Z.leb_le in Hxy. constructor; [constructor; assumption|].
      constructor; [exact Hxy|].
      eapply Forall_impl; [|exact Hy]. intros z Hz. eapply cmp_trans; eauto.
    + apply Z.leb_gt in Hxy. constructor; [exact IH|].
      assert (Hyx : le_by cmp y x).
      { destruct (cmp_total x y) as [H|H]; [unfold le_by in *; lia|exact H]. }
      apply Forall_forall. intros z Hz.
      apply (Permutation_in _ (insert_by_perm x tl)) in Hz.
      destruct Hz as [<-|Hz]; [exact Hyx|].
      rewrite Forall_forall in Hy. auto.
Qed.

Lemma sort_by_sorted l : StronglySorted (le_by cmp) (sort_by cmp l).
Proof.
  induction l as [|x tl IH]; cbn [sort_by fold_right]; [constructor|].
  apply insert_by_sorted. exact IH.
Qed.

End SortFacts.

Section SortRelated.
Variables (A : Type) (R : A -> A -> Prop) (cmp : A -> A -> Z).
Hypothesis cmp_compat :
  forall a a' b b', R a a' -> R b b' -> cmp a b = cmp a' b'.

Lemma insert_by_related x x' l l' :
  R x x' -> Forall2 R l l' ->
  Forall2 R (insert_by cmp x l) (insert_by cmp x' l').
Proof.
  intros Hx. induction 1 as [|y y' tl tl' Hy Htl IH]; cbn [insert_by].
  - repeat constructor. exact Hx.
  - rewrite (cmp_compat _ _ _ _ Hx Hy).
    destruct (cmp x' y' <=? 0)%Z; repeat (constructor; try assumption).
Qed.

Lemma sort_by_related l l' :
  Forall2 R l l' -> Forall2 R (sort_by cmp l) (sort_by cmp l').
Proof.
  induction 1 as [|x x' tl tl' Hx Htl IH]; cbn [sort_by fold_right];
    [constructor|].
  apply insert_by_related; assumption.
Qed.

End SortRelated.

(** ** Extraction does not depend on the identifiers drawn *)

Lemma createPlaceholder_sim w1 w2 text orig :
  same_up_to_id (fst (Parser.createPlaceholder w1 text orig))
                (fst (Parser.createPlaceholder w2 text orig)).
Proof.
  rewrite !createPlaceholder_fields. cbn [fst]. unfold same_up_to_id.
  cbn. repeat split.
Qed.

Lemma Forall2_snoc (A B : Type) (R : A -> B -> Prop) l l' x y :
  Forall2 R l l' -> R x y -> Forall2 R (l ++ [x]) (l' ++ [y]).
Proof. intros Hl Hxy. apply Forall2_app; [exact Hl|]. repeat constructor. exact Hxy. Qed.

Lemma match_loop_sim pattern :
  forall fuel cur st1 st2, state_sim st1 st2 ->
    option_sim (Parser.match_loop fuel pattern cur st1)
               (Parser.match_loop fuel pattern cur st2).
Proof.
  induction fuel as [|f IH]; intros cur st1 st2 Hsim; [exact I|].
  cbn [Parser.match_loop].
  destruct (exec pattern cur) as [[m cur']|]; [|exact Hsim].
  destruct Hsim as [Hfound Hphs]. rewrite Hfound.
  destruct (Parser.has _ _).
  - apply IH. split; assumption.
  - pose proof (createPlaceholder_sim (Parser.world st1) (Parser.world st2)
                  (trim (capture 1 (m_caps m))) (m0 m)) as Hc.
    destruct (Parser.createPlaceholder (Parser.world st1) _ _) as [p1 w1'].
    destruct (Parser.createPlaceholder (Parser.world st2) _ _) as [p2 w2'].
    apply IH. split; cbn.
    + reflexivity.
    + apply Forall2_snoc; assumption.
Qed.

Lemma each_pattern_sim patterns content :
  forall st1 st2, state_sim st1 st2 ->
    option_sim (Parser.each_pattern patterns content st1)
               (Parser.each_pattern patterns content st2).
Proof.
  induction patterns as [|r tl IH]; intros st1 st2 Hsim;
    cbn [Parser.each_pattern]; [exact Hsim|].
  pose proof (match_loop_sim r (S (length content)) (Cursor true content)
                _ _ Hsim) as H.
  destruct (Parser.match_loop _ r _ st1), (Parser.match_loop _ r _ st2);
    cbn in H; try contradiction; [|exact I].
  apply IH. exact H.
Qed.

Lemma detect_sim w1 w2 content :
  option_sim (Parser.detect w1 content) (Parser.detect w2 content).
Proof.
  apply each_pattern_sim. split; cbn; [reflexivity|constructor].
Qed.

(** ** One placeholder for each key *)

Lemma has_false_not_in k set : Parser.has k set = false -> ~ In k set.
Proof.
  unfold Parser.has. intros H Hin.
  assert (Ht : existsb (str_eqb k) set = true).
  { apply existsb_exists. exists k. split; [exact Hin|]. apply str_eqb_eq.
    reflexivity. }
  congruence.
Qed.

Lemma match_loop_keyed pattern :
  forall fuel cur st st',
    Parser.match_loop fuel pattern cur st = Some st' -> keyed st -> keyed st'.
Proof.
  induction fuel as [|f IH]; intros cur st st' H Hk; [discriminate|].
  cbn [Parser.match_loop] in H.
  destruct (exec pattern cur) as [[m cur']|]; [|injection H as <-; exact Hk].
  destruct (Parser.has _ _) eqn:Hhas; [eapply IH; eauto|].
  pose proof (createPlaceholder_fields (Parser.world st)
                (trim (capture 1 (m_caps m))) (m0 m)) as Hf.
  destruct (Parser.createPlaceholder _ _ _) as [ph w'].
  eapply IH; [exact H|]. destruct Hk as [Hnd Hkeys]. split; cbn.
  - apply (Permutation_NoDup (Permutation_cons_append _ _)).
    constructor; [|exact Hnd]. apply has_false_not_in. exact Hhas.
  - apply Forall2_snoc; [exact Hkeys|].
    exists (trim (capture 1 (m_caps m))). injection Hf as -> _.
    repeat split.
Qed.

Lemma each_pattern_keyed patterns content :
  forall st st',
    Parser.each_pattern patterns content st = Some st' ->
    keyed st -> keyed st'.
Proof.
  induction patterns as [|r tl IH]; intros st st' H Hk;
    cbn [Parser.each_pattern] in H; [injection H as <-; exact Hk|].
  destruct (Parser.match_loop _ r _ st) as [st1|] eqn:H1; [|discriminate].
  eapply IH; [exact H|]. eapply match_loop_keyed; eauto.
Qed.

(** Detection keeps one placeholder for each key: the keys (the inner
    tokens, trimmed and in lower case) are pairwise distinct, and the
    placeholders are the ones created at the first sight of each key. *)
Lemma detect_keyed w content st :
  Parser.detect w content = Some st -> keyed st.
Proof.
  intros H. eapply each_pattern_keyed; [exact H|].
  split; cbn; constructor.
Qed.

(** ** Claims on detection, filling and metadata *)

Ltac run_detect w content :=
  let d := fresh "d" in
  let Hd := fresh "Hd" in
  remember (Parser.detect w content) as d eqn:Hd;
  vm_compute in Hd; subst d; cbn [option_map].

(** C1: on the content [{{x}} and {{x}} again] the extraction returns two
    placeholders, not one: the double-curly grammar yields the token [x]
    with original text [{{x}}] (its second occurrence is collapsed), and
    the single-curly grammar then matches [{{x}] inside the same span and
    yields a second placeholder for the token [{x].  Filling the content
    with the value [Y] supplied for [{{x}}] yields [Y and Y again]. *)
Theorem duplicate_token_yields_two_placeholders :
  forall h w,
  exists l p q,
    Parser.extractPlaceholders h w (js "{{x}} and {{x}} again") = Some l /\
    length l = 2 /\
    Permutation l [p; q] /\
    originalText p = js "{{x}}" /\ label p = js "X" /\
    originalText q = js "{{x}" /\ label q = js "{x" /\
    Parser.fillPlaceholders (js "{{x}} and {{x}} again")
      (map (supply (js "{{x}}") (js "Y")) l) = Some (js "Y and Y again").
Proof.
  intros h w. unfold Parser.extractPlaceholders.
  run_detect w (js "{{x}} and {{x}} again").
  cbn [Parser.placeholders sort_by fold_right insert_by].
  match goal with
  | |- context [(?c <=? 0)%Z] => destruct (c <=? 0)%Z
  end.
  - do 3 eexists. split; [reflexivity|]. split; [reflexivity|].
    split; [reflexivity|]. repeat split; vm_compute; reflexivity.
  - do 3 eexists. split; [reflexivity|]. split; [reflexivity|].
    split; [apply perm_swap|]. repeat split; vm_compute; reflexivity.
Qed.

(** C2: a value is not substituted literally when it holds a dollar
    pattern.  With the value [$$5] the token is replaced by [$5], and
    with the value [$&] it is replaced by the token itself, whereas
    the literal substitution puts the value as it is. *)
Theorem fill_interprets_dollar_patterns :
  Parser.fillPlaceholders (js "Fee: {{amount}} due")
    [field (js "Amount") (js "{{amount}}") (Some (js "$$5")) TNumber true]
  = Some (js "Fee: $5 due") /\
  replace_occurrences (js "{{amount}}") (js "$$5") (js "Fee: {{amount}} due")
  = js "Fee: $$5 due" /\
  Parser.fillPlaceholders (js "Fee: {{amount}} due")
    [field (js "Amount") (js "{{amount}}") (Some (js "$&")) TText true]
  = Some (js "Fee: {{amount}} due") /\
  replace_occurrences (js "{{amount}}") (js "$&") (js "Fee: {{amount}} due")
  = js "Fee: $& due".
Proof. repeat split; vm_compute; reflexivity. Qed.

(** The example of the specification, and its second filling. *)
Lemma fill_hello_alice :
  let phs := [field (js "Name") (js "{{name}}") (Some (js "Alice")) TText true;
              field (js "Amount") (js "{{amount}}") (Some (js "10")) TNumber true] in
  Parser.fillPlaceholders (js "Hello {{name}}, total {{amount}}") phs
  = Some (js "Hello Alice, total 10") /\
  Parser.fillPlaceholders (js "Hello Alice, total 10") phs
  = Some (js "Hello Alice, total 10").
Proof. split; vm_compute; reflexivity. Qed.

Lemma drop_while_map (f : ascii -> ascii) p s :
  (forall c, p (f c) = p c) ->
  drop_while p (map f s) = map f (drop_while p s).
Proof.
  intros Hf. induction s as [|c tl IH]; [reflexivity|].
  cbn [map drop_while]. rewrite Hf. destruct (p c); [exact IH|reflexivity].
Qed.

Lemma trim_map (f : ascii -> ascii) s :
  (forall c, is_space (f c) = is_space c) ->
  trim (map f s) = map f (trim s).
Proof.
  intros Hf. unfold trim, trimEnd, trimStart.
  rewrite (drop_while_map f is_space s Hf), <- map_rev,
          (drop_while_map f is_space _ Hf), map_rev.
  reflexivity.
Qed.

Lemma lower_char_space c : is_space (lower_char c) = is_space c.
Proof. destruct c as [[] [] [] [] [] [] [] []]; reflexivity. Qed.

Lemma lower_char_dash c :
  lower_char (if is_char "_" c || is_char "-" c then " "%char else c)
  = (if is_char "_" (lower_char c) || is_char "-" (lower_char c)
     then " "%char else lower_char c).
Proof. destruct c as [[] [] [] [] [] [] [] []]; reflexivity. Qed.

(** Lowering the case commutes with the normalization of a token: the
    metadata depends on the token only up to the case of its letters. *)
Lemma normalized_token_lower text :
  toLowerCase (normalized_token text) = normalized_token (toLowerCase text).
Proof.
  unfold normalized_token, toLowerCase.
  rewrite <- (trim_map lower_char _ lower_char_space), !map_map.
  f_equal. apply map_ext. intros c. apply lower_char_dash.
Qed.

(** C3: the metadata of a created placeholder is inferred from the
    normalized token (underscores and dashes replaced by spaces, trimmed)
    without regard to case: the type is date when it contains date or
    time, else email when it contains email or e-mail, else number when it
    contains number, amount, price or cost, else text; it is required
    unless it contains optional or if applicable; the label is the
    normalized token with each space-delimited word capitalized.  For the
    token client_name this gives the label Client Name, the type text and
    required, whatever the delimiters, and each of the four delimiter
    styles is detected with that metadata. *)
Theorem createPlaceholder_metadata :
  (forall w text orig,
      let p := fst (Parser.createPlaceholder w text orig) in
      let token := normalized_token text in
      type p = inferred_type (toLowerCase token) /\
      required p = inferred_required (toLowerCase token) /\
      label p = capitalize_words token /\
      originalText p = orig /\
      toLowerCase token = normalized_token (toLowerCase text)) /\
  (forall w orig,
      let p := fst (Parser.createPlaceholder w (js "client_name") orig) in
      label p = js "Client Name" /\ type p = TText /\ required p = true) /\
  (forall h w,
      Forall (fun content =>
                exists l p,
                  Parser.extractPlaceholders h w content = Some l /\
                  In p l /\ originalText p = content /\
                  label p = js "Client Name" /\ type p = TText /\
                  required p = true)
             [js "{{client_name}}"; js "[CLIENT_NAME]";
              js "<<client_name>>"; js "{client_name}"]).
Proof.
  split; [|split].
  - intros w text orig. cbn zeta. rewrite createPlaceholder_fields.
    cbn [fst type required label originalText].
    repeat split. apply normalized_token_lower.
  - intros w orig. cbn zeta. rewrite createPlaceholder_fields.
    cbn [fst type required label]. repeat split; vm_compute; reflexivity.
  - intros h w. unfold Parser.extractPlaceholders.
    repeat constructor.
    all: match goal with
         | |- context [Parser.detect ?w0 ?c] => run_detect w0 c
         end.
    all: do 2 eexists; split; [reflexivity|]; split;
      [ eapply Permutation_in;
        [symmetry; apply sort_by_perm | left; reflexivity]
      | repeat split; reflexivity ].
Qed.

(** ** Validation *)

Lemma validate_one_field h errs p :
  Parser.validate_one h errs p = errs ++ field_errors h p.
Proof.
  unfold Parser.validate_one, field_errors, missing_required, type_error,
    nonempty_value, fails_type_check, Parser.isValidDate.
  destruct (required p && Parser.blank (value p)); [reflexivity|].
  destruct (value p) as [[|c v]|]; cbn [andb]; try (symmetry; apply app_nil_r).
  destruct (type p); cbn [type_message];
    match goal with
    | |- context [if ?b then _ else _] => destruct b
    | _ => idtac
    end; try reflexivity; symmetry; apply app_nil_r.
Qed.

Lemma validate_fold h phs :
  forall acc,
    fold_left (Parser.validate_one h) phs acc
    = acc ++ flat_map (field_errors h) phs.
Proof.
  induction phs as [|p tl IH]; intros acc; cbn [fold_left flat_map].
  - symmetry. apply app_nil_r.
  - rewrite IH, validate_one_field, app_assoc. reflexivity.
Qed.

Lemma length_zero_nil (A : Type) (l : list A) :
  (length l =? 0) = true <-> l = [].
Proof. destruct l; cbn; split; (reflexivity || discriminate). Qed.

Lemma flat_map_nil (A B : Type) (f : A -> list B) l :
  flat_map f l = [] <-> Forall (fun x => f x = []) l.
Proof.
  induction l as [|x tl IH]; cbn [flat_map].
  - split; [constructor|reflexivity].
  - split.
    + intros H. apply app_eq_nil in H. destruct H as [Hx Htl].
      constructor; [exact Hx|]. apply IH. exact Htl.
    + intros H. inversion H as [|? ? Hx Htl]; subst.
      rewrite Hx. apply IH. exact Htl.
Qed.

Lemma field_errors_count h phs :
  length (flat_map (field_errors h) phs)
  = length (filter missing_required phs)
    + length (filter (fun p => negb (missing_required p) && type_error h p) phs).
Proof.
  induction phs as [|p tl IH]; [reflexivity|].
  cbn [flat_map filter]. rewrite length_app, IH. unfold field_errors.
  destruct (missing_required p); cbn [negb andb length]; [lia|].
  destruct (type_error h p); cbn [length]; lia.
Qed.

(** C4, as the code has it: the error list is the concatenation, in the
    order of the placeholders, of what each field contributes (nothing
    is cut short): one completeness error naming the label when the
    field is required and its value is absent, empty or white space only;
    otherwise one type error when its value is non-empty and fails the
    check of its type; [isValid] holds exactly when the list is empty. An
    email field with the value not-an-email gives exactly one type error,
    with the value a@b.co none, and a required field without a value
    exactly one completeness error. *)
Theorem validatePlaceholders_errors :
  forall h phs,
    let r := Parser.validatePlaceholders h phs in
    errors r = flat_map (field_errors h) phs /\
    (isValid r = true <-> errors r = []) /\
    length (errors r)
    = length (filter missing_required phs)
      + length (filter (fun p => negb (missing_required p) && type_error h p)
                       phs) /\
    errors (Parser.validatePlaceholders h
              [field (js "Email") (js "{{email}}") (Some (js "not-an-email"))
                     TEmail true])
    = [js "Email must be a valid email address"] /\
    errors (Parser.validatePlaceholders h
              [field (js "Email") (js "{{email}}") (Some (js "a@b.co"))
                     TEmail true])
    = [] /\
    errors (Parser.validatePlaceholders h
              [field (js "Name") (js "{{name}}") (Some []) TText true])
    = [js "Name is required"].
Proof.
  intros h phs r. subst r. unfold Parser.validatePlaceholders.
  cbn [errors isValid]. rewrite !validate_fold. cbn [app].
  split; [reflexivity|]. split; [apply length_zero_nil|].
  split; [apply field_errors_count|].
  repeat split; vm_compute; reflexivity.
Qed.

(** C4 as stated fails: were the two checks applied to every field, a
    required email field holding one space would give two errors (it is
    white space only, and it is a non-empty value that is no address);
    the code reports the completeness error alone. *)
Lemma validatePlaceholders_independent_counterexample :
  ~ (forall h phs,
       length (errors (Parser.validatePlaceholders h phs))
       = independent_error_count h phs).
Proof.
  intros H.
  specialize (H sample_host
                [field (js "Email") (js "{{email}}") (Some (js " ")) TEmail true]).
  vm_compute in H. discriminate H.
Qed.

(** ** The sample collation is consistent *)

Lemma code_unit_compare_total a b :
  (code_unit_compare a b <= 0)%Z \/ (code_unit_compare b a <= 0)%Z.
Proof.
  revert b. induction a as [|x a IH]; intros [|y b]; cbn [code_unit_compare];
    try (left; lia); try (right; lia).
  destruct (code x <? code y) eqn:Hxy; [left; lia|].
  destruct (code y <? code x) eqn:Hyx; [right; lia|].
  apply IH.
Qed.

Lemma code_unit_compare_trans a b c :
  (code_unit_compare a b <= 0)%Z -> (code_unit_compare b c <= 0)%Z ->
  (code_unit_compare a c <= 0)%Z.
Proof.
  revert b c. induction a as [|x a IH]; intros [|y b] [|z c];
    cbn [code_unit_compare]; try lia.
  destruct (code x <? code y) eqn:Hxy, (code y <? code x) eqn:Hyx,
           (code y <? code z) eqn:Hyz, (code z <? code y) eqn:Hzy,
           (code x <? code z) eqn:Hxz, (code z <? code x) eqn:Hzx;
    try lia;
    repeat match goal with
           | H : (_ <? _) = true |- _ => apply Nat.ltb_lt in H
           | H : (_ <? _) = false |- _ => apply Nat.ltb_ge in H
           end; try lia.
  apply IH.
Qed.

Lemma sample_host_total : collation_total sample_host.
Proof. intros a b. apply code_unit_compare_total. Qed.

Lemma sample_host_transitive : collation_transitive sample_host.
Proof. intros a b c. apply code_unit_compare_trans. Qed.

(** ** Claims on extraction order and determinism *)

(** C5: extraction is deterministic up to [id].  Whatever the clock and
    the random generator yield in two runs on the same text, both runs
    return, and their lists have the same length and agree pairwise on
    label, type, required flag, original text, description and value. *)
Theorem extraction_deterministic_up_to_id :
  forall h w1 w2 content,
  exists l1 l2,
    Parser.extractPlaceholders h w1 content = Some l1 /\
    Parser.extractPlaceholders h w2 content = Some l2 /\
    length l1 = length l2 /\
    Forall2 same_up_to_id l1 l2.
Proof.
  intros h w1 w2 content. unfold Parser.extractPlaceholders.
  pose proof (detect_sim w1 w2 content) as Hsim.
  destruct (detect_total w1 content) as [st1 H1].
  destruct (detect_total w2 content) as [st2 H2].
  rewrite H1, H2 in *. cbn [option_map option_sim] in *.
  destruct Hsim as [_ Hphs].
  assert (Hsorted : Forall2 same_up_to_id
            (sort_by (Parser.by_label h) (Parser.placeholders st1))
            (sort_by (Parser.by_label h) (Parser.placeholders st2))).
  { apply sort_by_related; [|exact Hphs].
    intros a a' b b' (Ha & _) (Hb & _). unfold Parser.by_label.
    rewrite Ha, Hb. reflexivity. }
  do 2 eexists. repeat split; try reflexivity; [|exact Hsorted].
  eapply Forall2_length; eauto.
Qed.

(** C6: the list extraction returns is sorted by label in ascending order
    of the host collation (whenever that collation is consistent: total
    and transitive), and it is a rearrangement of the placeholders in
    their detection order. *)
Theorem extraction_sorted_by_label :
  forall h w content,
    collation_total h -> collation_transitive h ->
    exists st l,
      Parser.detect w content = Some st /\
      Parser.extractPlaceholders h w content = Some l /\
      StronglySorted (label_le h) l /\
      Permutation l (Parser.placeholders st).
Proof.
  intros h w content Htot Htrans. unfold Parser.extractPlaceholders.
  destruct (detect_total w content) as [st Hst]. rewrite Hst.
  exists st, (sort_by (Parser.by_label h) (Parser.placeholders st)).
  repeat split.
  - apply (sort_by_sorted _ (Parser.by_label h)).
    + intros a b. apply Htot.
    + intros a b c. apply Htrans.
  - apply sort_by_perm.
Qed.

Lemma extraction_sorted_by_label_witness :
  exists st l,
    Parser.detect sample_world (js "Between <<seller>> and {{buyer}} on [SIGNING DATE]") = Some st /\
    Parser.extractPlaceholders sample_host sample_world
      (js "Between <<seller>> and {{buyer}} on [SIGNING DATE]") = Some l /\
    StronglySorted (label_le sample_host) l /\
    Permutation l (Parser.placeholders st).
Proof.
  apply (extraction_sorted_by_label sample_host sample_world
           (js "Between <<seller>> and {{buyer}} on [SIGNING DATE]")
           sample_host_total sample_host_transitive).
Defined.

(** Detection order and returned order differ: the first token detected
    comes last once the list is sorted by label. *)
Lemma extraction_order_example :
  option_map (map label)
    (option_map Parser.placeholders
       (Parser.detect sample_world (js "<<zeta>> then <<alpha>>")))
  = Some [js "Zeta"; js "Alpha"] /\
  option_map (map label)
    (Parser.extractPlaceholders sample_host sample_world
       (js "<<zeta>> then <<alpha>>"))
  = Some [js "Alpha"; js "Zeta"].
Proof. split; vm_compute; reflexivity. Qed.

(** ** The line classifier of the renderer *)

Lemma tail_class_last q r :
  tail_class q r ->
  forall bol st st', In st' (rmatch bol r st) ->
    rest st' = [] /\ exists c tk, taken st' = c :: tk /\ q c = true.
Proof.
  induction 1 as [| |r1 r2 _ IH]; intros bol st st' H.
  - cbn [rmatch] in H. apply in_flat_map in H.
    destruct H as (mid & Hmid & Hst').
    destruct (rest st) as [|c tl]; [destruct Hmid|].
    destruct (q c) eqn:Hc; [|destruct Hmid]. destruct Hmid as [<-|[]].
    cbn [rest taken] in Hst'.
    destruct tl; [|destruct Hst']. destruct Hst' as [<-|[]].
    cbn [rest taken]. eauto.
  - cbn [rmatch] in H. apply in_flat_map in H.
    destruct H as (mid & Hmid & Hst').
    destruct (rest st) as [|c tl]; [destruct Hmid|].
    destruct (q c) eqn:Hc; [|destruct Hmid].
    apply greedy_consumes in Hmid. destruct Hmid as (_ & _ & Hlast).
    destruct (Hlast c (taken st) eq_refl Hc) as (c1 & tk1 & Ht & Hq).
    destruct (is_empty (rest mid)) eqn:He; [|destruct Hst'].
    destruct Hst' as [<-|[]]. split; [|eauto].
    destruct (rest mid); [reflexivity|discriminate].
  - cbn [rmatch] in H. apply in_flat_map in H.
    destruct H as (mid & _ & Hst'). eapply IH; eauto.
Qed.

Lemma tail_class_no_match q r x bol s :
  tail_class q r -> q x = false ->
  s = [] \/ (exists u, s = u ++ [x]) ->
  rmatch bol r (MState [] s []) = [].
Proof.
  intros Ht Hx Hs.
  destruct (rmatch bol r (MState [] s [])) as [|st' l] eqn:Hm; [reflexivity|].
  exfalso.
  assert (Hin : In st' (rmatch bol r (MState [] s []))) by (rewrite Hm; left; reflexivity).
  pose proof (rmatch_consumes _ _ _ _ Hin) as Hc.
  destruct (tail_class_last _ _ Ht _ _ _ Hin) as (Hr & c & tk & Htk & Hq).
  rewrite Hr, Htk, app_nil_r in Hc. cbn [taken rest rev app] in Hc.
  destruct Hs as [->|(u & ->)].
  - destruct (rev tk); discriminate Hc.
  - apply app_inj_tail in Hc. destruct Hc as [_ ->]. congruence.
Qed.

Lemma search_tail_class q r x :
  tail_class q r -> q x = false ->
  forall s bol, s = [] \/ (exists u, s = u ++ [x]) -> search r bol s = None.
Proof.
  intros Ht Hx. induction s as [|c tl IH]; intros bol Hs; cbn [search];
    rewrite (tail_class_no_match q r x bol _ Ht Hx Hs); [reflexivity|].
  rewrite IH; [reflexivity|].
  destruct Hs as [Hs|(u & Hu)]; [discriminate|].
  destruct u as [|c' u']; cbn [app] in Hu; injection Hu as _ ->.
  - left. reflexivity.
  - right. eauto.
Qed.

(** A pattern that ends on a class and the end anchor matches no text
    whose last code unit is outside the class. *)
Lemma test_tail_class q r x u :
  tail_class q r -> q x = false -> test r (u ++ [x]) = false.
Proof.
  intros Ht Hx. unfold test.
  rewrite (search_tail_class q r x Ht Hx); [reflexivity|]. right. eauto.
Qed.

Lemma drop_while_snoc p u x :
  p x = false -> exists u', drop_while p (u ++ [x]) = u' ++ [x].
Proof.
  intros Hx. induction u as [|c tl (u' & IH)]; cbn [app drop_while].
  - rewrite Hx. exists []. reflexivity.
  - destruct (p c); [eauto|]. exists (c :: tl). reflexivity.
Qed.

Lemma trim_snoc u x :
  is_space x = false -> exists u', trim (u ++ [x]) = u' ++ [x].
Proof.
  intros Hx. unfold trim, trimStart, trimEnd.
  destruct (drop_while_snoc is_space u x Hx) as (u' & ->).
  exists u'. rewrite rev_app_distr. cbn [rev app drop_while]. rewrite Hx.
  cbn [rev]. rewrite rev_involutive. reflexivity.
Qed.

(** A line that ends in a period is a heading exactly when it is numbered
    (and shorter than 100): the three other patterns reject it. *)
Lemma isHeading_sentence u :
  Download.isHeading (u ++ ["."%char])
  = test Download.numbered (trim (u ++ ["."%char]))
    && (length (u ++ ["."%char]) <? 100).
Proof.
  unfold Download.isHeading, Download.headingPatterns.
  destruct (trim_snoc u "." eq_refl) as (u' & ->).
  cbn [existsb].
  rewrite (test_tail_class Download.upper_or_space Download.all_caps "." u'),
          (test_tail_class (is_char ":") Download.title_colon "." u'),
          (test_tail_class (none_of ".") Download.capital_no_period "." u');
    try reflexivity; repeat constructor.
  rewrite !orb_false_r. reflexivity.
Qed.

(** C7: the line SECTION ONE is a heading of level 1, the line 1. Parties
    a heading of level 2, a sentence ending in a period a body paragraph
    (any line ending in a period is a heading only when it is numbered);
    the sizes are 16pt, 14pt and 13pt for the three heading levels and
    12pt for the body, and headings are bold. *)
Theorem render_line_classification :
  Download.parseTextToParagraphs
    (js "SECTION ONE" ++ ["010"%char] ++ js "1. Parties" ++ ["010"%char]
     ++ js "The parties agree to the terms set out below.")
  = [ {| Download.text := js "SECTION ONE"; Download.bold := true;
         Download.size := 32; Download.heading := Some Download.HEADING_1;
         Download.spacing_after := 200 |};
      {| Download.text := js "1. Parties"; Download.bold := true;
         Download.size := 28; Download.heading := Some Download.HEADING_2;
         Download.spacing_after := 200 |};
      {| Download.text := js "The parties agree to the terms set out below.";
         Download.bold := false; Download.size := 24;
         Download.heading := None; Download.spacing_after := 200 |} ] /\
  Download.isHeading (js "SECTION ONE") = true /\
  Download.getHeadingLevel (js "SECTION ONE") = Download.HEADING_1 /\
  Download.isHeading (js "1. Parties") = true /\
  Download.getHeadingLevel (js "1. Parties") = Download.HEADING_2 /\
  (forall u,
      Download.isHeading (u ++ ["."%char])
      = test Download.numbered (trim (u ++ ["."%char]))
        && (length (u ++ ["."%char]) <? 100)) /\
  points (Download.getHeadingSize Download.HEADING_1) = 16 /\
  points (Download.getHeadingSize Download.HEADING_2) = 14 /\
  points (Download.getHeadingSize Download.HEADING_3) = 13 /\
  (forall line,
      Forall (fun p =>
                match Download.heading p with
                | Some level =>
                    Download.bold p = true /\
                    Download.size p = Download.getHeadingSize level
                | None => points (Download.size p) = 12
                end)
             (Download.paragraph_of_line line)).
Proof.
  split; [vm_compute; reflexivity|].
  do 4 (split; [vm_compute; reflexivity|]).
  split; [exact isHeading_sentence|].
  do 3 (split; [reflexivity|]).
  intros line. unfold Download.paragraph_of_line.
  destruct (is_empty (trim line)); [constructor|].
  destruct (Download.isHeading (trim line)); repeat constructor.
Qed.

(** ** Upload validation *)


(** C8: a file passes the upload validation exactly when its MIME type is
    one of the two word-processing types, its size is at most 10 MB
    (10 * 1024 * 1024 bytes) and its name has at most 255 characters; each
    violated condition contributes one error. *)
Theorem validateDocumentUpload_verdict :
  forall f,
    let r := Api.validateDocumentUpload (Some f) in
    (isValid r = true <->
       (Api.type f
        = js "application/vnd.openxmlformats-officedocument.wordprocessingml.document"
        \/ Api.type f = js "application/msword") /\
       (Api.size f <= 10 * 1024 * 1024)%N /\
       length (Api.name f) <= 255) /\
    length (errors r)
    = b2n (10 * 1024 * 1024 <? Api.size f)%N
      + b2n (negb (existsb (str_eqb (Api.type f)) Api.allowedTypes))
      + b2n (255 <? length (Api.name f)).
Proof.
  intros f r. subst r. unfold Api.validateDocumentUpload.
  cbn [isValid errors]. change Api.maxSize with (10 * 1024 * 1024)%N.
  assert (Hty : existsb (str_eqb (Api.type f)) Api.allowedTypes = true <->
                (Api.type f
                 = js "application/vnd.openxmlformats-officedocument.wordprocessingml.document"
                 \/ Api.type f = js "application/msword")).
  { unfold Api.allowedTypes. cbn [existsb].
    rewrite !orb_true_iff, !str_eqb_eq. intuition discriminate. }
  destruct (N.ltb_spec (10 * 1024 * 1024) (Api.size f)) as [Hsz|Hsz];
    destruct (existsb (str_eqb (Api.type f)) Api.allowedTypes) eqn:Hex;
    destruct (Nat.ltb_spec 255 (length (Api.name f))) as [Hnm|Hnm];
    cbn [negb app length b2n Nat.eqb Nat.add];
    (split; [|reflexivity]); split;
    try discriminate;
    try (intros (Ht & Hs & Hn);
         first [lia | apply Hty in Ht; discriminate Ht]).
  intros _. repeat split; [apply Hty; reflexivity|assumption|assumption].
Qed.

(** ** The two validations compared *)

Lemma check_filled_field h errs p :
  Download.check_filled h errs p = errs ++ download_field_errors h p.
Proof.
  unfold Download.check_filled, download_field_errors, Download.unfilled,
    fails_type_check, Download.isValidDate, Download.isValidEmail,
    Parser.isValidEmail.
  destruct (value p) as [[|c v]|]; cbn [negb andb];
    try (symmetry; apply app_nil_r).
  destruct (is_empty (trim (c :: v))); cbn [negb andb];
    [symmetry; apply app_nil_r|].
  destruct (type p); cbn [download_message];
    match goal with
    | |- context [if ?b then _ else _] => destruct b
    | _ => idtac
    end; try reflexivity; symmetry; apply app_nil_r.
Qed.

Lemma check_filled_fold h phs :
  forall acc,
    fold_left (Download.check_filled h) phs acc
    = acc ++ flat_map (download_field_errors h) phs.
Proof.
  induction phs as [|p tl IH]; intros acc; cbn [fold_left flat_map].
  - symmetry. apply app_nil_r.
  - rewrite IH, check_filled_field, app_assoc. reflexivity.
Qed.

Lemma filter_nil (A : Type) (f : A -> bool) l :
  filter f l = [] <-> Forall (fun x => f x = false) l.
Proof.
  induction l as [|x tl IH]; cbn [filter].
  - split; [constructor|reflexivity].
  - destruct (f x) eqn:Hx.
    + split; [discriminate|]. intros H. inversion H; congruence.
    + rewrite IH. split; [intros H; constructor; assumption|].
      intros H. inversion H; assumption.
Qed.

Lemma filter_twice (A : Type) (f g : A -> bool) l :
  filter f (filter g l) = filter (fun x => g x && f x) l.
Proof.
  induction l as [|x tl IH]; [reflexivity|]. cbn [filter].
  destruct (g x); cbn [filter andb]; rewrite IH; reflexivity.
Qed.

Lemma parser_valid_iff h phs :
  isValid (Parser.validatePlaceholders h phs) = true
  <-> Forall (fun p => field_errors h p = []) phs.
Proof.
  unfold Parser.validatePlaceholders. cbn [isValid].
  rewrite validate_fold, length_zero_nil. cbn [app]. apply flat_map_nil.
Qed.

Lemma download_valid_iff h phs :
  isValid (Download.validateForDownload h phs) = true
  <-> Forall (fun p => (required p && Download.unfilled p) = false) phs
      /\ Forall (fun p => download_field_errors h p = []) phs.
Proof.
  unfold Download.validateForDownload. cbn [isValid].
  rewrite check_filled_fold, length_zero_nil, filter_twice.
  rewrite <- filter_nil, <- flat_map_nil.
  destruct (filter (fun x => required x && Download.unfilled x) phs) as [|q l].
  - cbn. split; [intros H; split; [reflexivity|exact H]|intros [_ H]; exact H].
  - cbn. split; [discriminate|intros [H _]; discriminate H].
Qed.

Lemma field_agreement h p :
  (optional_whitespace p && fails_type_check h p) = false ->
  (field_errors h p = [] <->
   (required p && Download.unfilled p) = false /\
   download_field_errors h p = []).
Proof.
  unfold optional_whitespace, field_errors, download_field_errors,
    missing_required, type_error, nonempty_value, Download.unfilled,
    Parser.blank.
  destruct (required p), (value p) as [[|c v]|];
    try destruct (is_empty (trim (c :: v)));
    destruct (fails_type_check h p); cbn;
    intros H; split; try intros [? ?]; try split;
    try reflexivity; try discriminate.
Qed.

Lemma field_download_implied h p :
  field_errors h p = [] ->
  (required p && Download.unfilled p) = false /\
  download_field_errors h p = [].
Proof.
  unfold field_errors, download_field_errors,
    missing_required, type_error, nonempty_value, Download.unfilled,
    Parser.blank.
  destruct (required p), (value p) as [[|c v]|];
    try destruct (is_empty (trim (c :: v)));
    destruct (fails_type_check h p); cbn;
    intros H; try split; try reflexivity; try discriminate.
Qed.

(** Whatever passes the validation of the parser passes the validation
    run before a download. *)
Lemma parser_valid_download_valid h phs :
  isValid (Parser.validatePlaceholders h phs) = true ->
  isValid (Download.validateForDownload h phs) = true.
Proof.
  rewrite parser_valid_iff, download_valid_iff, !Forall_forall.
  intros H. split; intros p Hp; apply (field_download_implied h p (H p Hp)).
Qed.

(** C9, as the code has it: the two validations agree on [isValid] for
    every list in which no optional placeholder holds a non-empty value of
    white space only that fails the check of its type. *)
Theorem validations_agree :
  forall h phs,
    forallb (fun p => negb (optional_whitespace p && fails_type_check h p)) phs
    = true ->
    (isValid (Parser.validatePlaceholders h phs) = true
     <-> isValid (Download.validateForDownload h phs) = true).
Proof.
  intros h phs Hok. rewrite forallb_forall in Hok.
  rewrite parser_valid_iff, download_valid_iff, !Forall_forall.
  assert (Hp : forall p, In p phs ->
             (optional_whitespace p && fails_type_check h p) = false).
  { intros p Hin. apply negb_true_iff. exact (Hok p Hin). }
  split.
  - intros H. split; intros p Hin;
      apply (proj1 (field_agreement h p (Hp p Hin)) (H p Hin)).
  - intros [H1 H2] p Hin.
    apply (proj2 (field_agreement h p (Hp p Hin))). split; auto.
Qed.

Lemma validations_agree_witness :
  isValid (Parser.validatePlaceholders sample_host
             [field (js "Email") (js "{{email}}") (Some (js "a@b.co")) TEmail true;
              field (js "Fax") (js "{fax_optional}") (Some (js " ")) TText false])
  = true
  <-> isValid (Download.validateForDownload sample_host
             [field (js "Email") (js "{{email}}") (Some (js "a@b.co")) TEmail true;
              field (js "Fax") (js "{fax_optional}") (Some (js " ")) TText false])
  = true.
Proof.
  apply (validations_agree sample_host
           [field (js "Email") (js "{{email}}") (Some (js "a@b.co")) TEmail true;
            field (js "Fax") (js "{fax_optional}") (Some (js " ")) TText false]).
  vm_compute. reflexivity.
Defined.

(** C9 as stated fails: an optional email field holding one space is
    rejected by the validation of the parser, which checks the type of any
    non-empty value, and accepted by the validation before a download,
    which checks the type of a value only when it is not white space. *)
Lemma validations_disagree_counterexample :
  ~ (isValid (Parser.validatePlaceholders sample_host
                [field (js "Email") (js "{email_optional}") (Some (js " "))
                       TEmail false]) = true
     <-> isValid (Download.validateForDownload sample_host
                [field (js "Email") (js "{email_optional}") (Some (js " "))
                       TEmail false]) = true).
Proof. vm_compute. intros [_ H]. specialize (H eq_refl). discriminate H. Qed.

(** ** The filled and unfilled boundary *)





Lemma drop_while_nil p s : drop_while p s = [] -> forallb p s = true.
Proof.
  induction s as [|c tl IH]; [reflexivity|]. cbn [drop_while forallb].
  destruct (p c); [exact IH|discriminate].
Qed.





(* ================================================================= *)
(** * Further properties *)

(** ** The matcher and what a pattern accepts *)

Lemma greedy_sound p tk rs cs st' :
  In st' (greedy p tk rs cs) ->
  exists w, forallb p w = true /\ rs = w ++ rest st' /\
            taken st' = rev w ++ tk /\ caps st' = cs.
Proof.
  revert tk. induction rs as [|c tl IH]; intros tk H; cbn [greedy] in H.
  - destruct H as [<-|[]]. exists []. repeat split.
  - destruct (p c) eqn:Hc.
    + apply in_app_or in H. destruct H as [H|[<-|[]]].
      * apply IH in H. destruct H as (w & Hw & Hr & Ht & Hcs).
        exists (c :: w). cbn [forallb rev app]. rewrite Hc, Hw, <- app_assoc.
        repeat split; try assumption. f_equal. exact Hr.
      * exists []. repeat split.
    + destruct H as [<-|[]]. exists []. repeat split.
Qed.

Lemma greedy_complete p w :
  forallb p w = true ->
  forall tk after cs,
    In (MState (rev w ++ tk) after cs) (greedy p tk (w ++ after) cs).
Proof.
  induction w as [|c w IH]; intros Hw tk after cs.
  - cbn [rev app]. destruct after as [|a tl]; cbn [greedy].
    + left. reflexivity.
    + destruct (p a); [apply in_or_app; right|]; left; reflexivity.
  - cbn [forallb] in Hw. apply andb_true_iff in Hw. destruct Hw as [Hc Hw].
    cbn [app greedy rev]. rewrite Hc. apply in_or_app. left.
    rewrite <- app_assoc. apply (IH Hw).
Qed.

Lemma is_empty_rev_app (w tk : jstring) :
  is_empty (rev w ++ tk) = is_empty w && is_empty tk.
Proof.
  destruct w as [|c w]; [reflexivity|]. cbn [rev is_empty andb].
  destruct (rev w); reflexivity.
Qed.

(** Every result of the matcher is accepted by the pattern. *)
Lemma rmatch_sound r :
  forall bol st st', In st' (rmatch bol r st) ->
    exists w,
      rest st = w ++ rest st' /\ taken st' = rev w ++ taken st /\
      acc (bol && is_empty (taken st)) r w (rest st') (caps st) (caps st').
Proof.
  induction r as [p|p|p|r1 IH1 r2 IH2| |i r0 IH| |]; intros bol st st' H;
    cbn [rmatch] in H.
  - destruct (rest st) as [|c tl]; [destruct H|].
    destruct (p c) eqn:Hc; [|destruct H]. destruct H as [<-|[]].
    exists [c]. cbn [rest taken caps rev app]. repeat split.
    constructor. exact Hc.
  - apply greedy_sound in H. destruct H as (w & Hw & Hr & Ht & Hcs).
    exists w. rewrite Hcs. repeat split; try assumption.
    constructor. exact Hw.
  - destruct (rest st) as [|c tl]; [destruct H|].
    destruct (p c) eqn:Hc; [|destruct H].
    apply greedy_sound in H. destruct H as (w & Hw & Hr & Ht & Hcs).
    exists (c :: w). rewrite Hcs, Ht, Hr. cbn [rev app].
    rewrite <- app_assoc. repeat split.
    constructor. cbn [forallb]. rewrite Hc, Hw. reflexivity.
  - apply in_flat_map in H. destruct H as (mid & Hmid & Hst').
    apply IH1 in Hmid. destruct Hmid as (w1 & Hr1 & Ht1 & Ha1).
    apply IH2 in Hst'. destruct Hst' as (w2 & Hr2 & Ht2 & Ha2).
    exists (w1 ++ w2). rewrite Hr1, Hr2, Ht2, Ht1, rev_app_distr, !app_assoc.
    repeat split.
    econstructor.
    + rewrite <- Hr2. exact Ha1.
    + rewrite Ht1, is_empty_rev_app in Ha2.
      replace (bol && is_empty (taken st) && is_empty w1)
        with (bol && (is_empty w1 && is_empty (taken st)))
        by (destruct bol, (is_empty w1), (is_empty (taken st)); reflexivity).
      exact Ha2.
  - destruct H as [<-|[]]. exists []. repeat split. constructor.
  - apply in_map_iff in H. destruct H as (st0 & <- & H0).
    apply IH in H0. cbn [rest taken caps is_empty] in H0.
    destruct H0 as (w & Hr & Ht & Ha).
    exists w. cbn [rest taken caps]. rewrite Ht, app_nil_r, rev_involutive.
    repeat split; [exact Hr|].
    constructor. rewrite andb_true_r in Ha. exact Ha.
  - destruct (bol && is_empty (taken st)) eqn:Hb; [|destruct H].
    destruct H as [<-|[]]. exists []. repeat split. constructor.
  - destruct (is_empty (rest st)) eqn:He; [|destruct H].
    destruct H as [<-|[]]. exists []. repeat split.
    destruct (rest st); [constructor|discriminate].
Qed.

(** Everything the pattern accepts is among the results of the matcher. *)
Lemma rmatch_complete at0 r w after cs cs' :
  acc at0 r w after cs cs' ->
  forall bol tk,
    at0 = bol && is_empty tk ->
    In (MState (rev w ++ tk) after cs') (rmatch bol r (MState tk (w ++ after) cs)).
Proof.
  induction 1 as [at0 p c after cs Hc|at0 p w after cs Hw|at0 p c w after cs Hw
                 |at0 r1 r2 w1 w2 after cs cs1 cs2 _ IH1 _ IH2
                 |at0 after cs|at0 i r w after cs cs' _ IH|after cs|at0 cs];
    intros bol tk Hat; cbn [rmatch rest taken caps].
  - cbn [app]. rewrite Hc. left. reflexivity.
  - apply greedy_complete. exact Hw.
  - cbn [forallb] in Hw. apply andb_true_iff in Hw. destruct Hw as [Hc Hw].
    cbn [app rev]. rewrite Hc, <- app_assoc. apply (greedy_complete p w Hw).
  - apply in_flat_map. exists (MState (rev w1 ++ tk) (w2 ++ after) cs1). split.
    + rewrite <- app_assoc. apply IH1. exact Hat.
    + rewrite rev_app_distr, <- app_assoc. apply IH2.
      rewrite is_empty_rev_app, Hat.
      destruct bol, (is_empty w1), (is_empty tk); reflexivity.
  - left. reflexivity.
  - apply in_map_iff.
    exists (MState (rev w ++ []) after cs'). split.
    + cbn [taken rest caps]. rewrite app_nil_r, rev_involutive. reflexivity.
    + apply IH. rewrite Hat. cbn [is_empty]. rewrite andb_true_r. reflexivity.
  - rewrite <- Hat. left. reflexivity.
  - left. reflexivity.
Qed.

Lemma search_sound r s :
  forall bol sk st, search r bol s = Some (sk, st) ->
    exists w,
      s = sk ++ w ++ rest st /\ taken st = rev w /\
      acc (bol && is_empty sk) r w (rest st) [] (caps st).
Proof.
  assert (Hhere : forall bol s0 st0 l,
             rmatch bol r (MState [] s0 []) = st0 :: l ->
             exists w, s0 = [] ++ w ++ rest st0 /\ taken st0 = rev w /\
                       acc (bol && is_empty []) r w (rest st0) [] (caps st0)).
  { intros bol s0 st0 l Hm.
    assert (Hin : In st0 (rmatch bol r (MState [] s0 [])))
      by (rewrite Hm; left; reflexivity).
    apply rmatch_sound in Hin. cbn [rest taken caps] in Hin.
    destruct Hin as (w & Hr & Ht & Ha). exists w.
    rewrite app_nil_r in Ht. auto. }
  induction s as [|c tl IH]; intros bol sk st H; cbn [search] in H.
  - destruct (rmatch bol r (MState [] [] [])) as [|st0 l] eqn:Hm;
      [discriminate|].
    injection H as <- <-. eapply Hhere; eauto.
  - destruct (rmatch bol r (MState [] (c :: tl) [])) as [|st0 l] eqn:Hm.
    + destruct (search r false tl) as [[sk0 st0]|] eqn:Hs; [|discriminate].
      injection H as <- <-. apply IH in Hs.
      destruct Hs as (w & Hs & Ht & Ha). exists w.
      cbn [app is_empty]. rewrite andb_false_r. cbn [andb] in Ha.
      repeat split; try assumption. f_equal. exact Hs.
    + injection H as <- <-. eapply Hhere; eauto.
Qed.

Lemma search_complete r pre :
  forall bol w after cs,
    acc (bol && is_empty pre) r w after [] cs ->
    exists sk st, search r bol (pre ++ w ++ after) = Some (sk, st).
Proof.
  induction pre as [|c pre IH]; intros bol w after cs Ha.
  - apply rmatch_complete with (bol := bol) (tk := []) in Ha; [|reflexivity].
    cbn [app]. destruct (w ++ after) as [|x tl] eqn:Hs; cbn [search];
      (destruct (rmatch bol r (MState [] _ [])); [destruct Ha|eauto]).
  - cbn [app search].
    destruct (rmatch bol r (MState [] (c :: pre ++ w ++ after) []));
      [|eauto].
    cbn [is_empty] in Ha. rewrite andb_false_r in Ha.
    destruct (IH false w after cs Ha) as (sk & st & ->). eauto.
Qed.

(** [test] holds exactly when the pattern accepts some part of the text. *)
Lemma test_spec r s :
  test r s = true <->
  exists pre w after cs,
    s = pre ++ w ++ after /\ acc (is_empty pre) r w after [] cs.
Proof.
  unfold test. split.
  - destruct (search r true s) as [[sk st]|] eqn:Hs; [|discriminate].
    intros _. apply search_sound in Hs. destruct Hs as (w & Hs & _ & Ha).
    exists sk, w, (rest st), (caps st). auto.
  - intros (pre & w & after & cs & -> & Ha).
    destruct (search_complete r pre true w after cs Ha) as (sk & st & ->).
    reflexivity.
Qed.

(** Inversion of [acc] on the shapes of patterns. *)
Ltac acc_inv :=
  repeat match goal with
         | H : acc _ (_ +++ _) _ _ _ _ |- _ => inversion H; subst; clear H
         | H : acc _ (lit _) _ _ _ _ |- _ => unfold lit in H
         | H : acc _ (Chr _) _ _ _ _ |- _ => inversion H; subst; clear H
         | H : acc _ (Plus _) _ _ _ _ |- _ => inversion H; subst; clear H
         | H : acc _ (Star _) _ _ _ _ |- _ => inversion H; subst; clear H
         | H : acc _ (Group _ _) _ _ _ _ |- _ => inversion H; subst; clear H
         | H : acc _ Empty _ _ _ _ |- _ => inversion H; subst; clear H
         | H : acc _ Bol _ _ _ _ |- _ => inversion H; subst; clear H
         | H : acc _ Eol _ _ _ _ |- _ => inversion H; subst; clear H
         end.

(** ** Shapes of the patterns of the services *)

Section Shapes.
Variables (p q a1 a2 b1 b2 : ascii -> bool).

Lemma acc_three_parts at0 w after cs cs' :
  acc at0 (Bol +++ Plus p +++ Chr a1 +++ Plus p +++ Chr a2 +++ Plus p +++ Eol)
      w after cs cs' ->
  at0 = true /\ after = [] /\
  exists l x d y t,
    w = l ++ x :: d ++ y :: t /\ a1 x = true /\ a2 y = true /\
    l <> [] /\ d <> [] /\ t <> [] /\
    forallb p l = true /\ forallb p d = true /\ forallb p t = true.
Proof.
  intros H. acc_inv. split; [reflexivity|]. split; [reflexivity|].
  cbn [app]. rewrite app_nil_r.
  match goal with
  | |- exists _ _ _ _ _,
        (?c1 :: ?w1 ++ ?x :: ?c2 :: ?w2 ++ ?y :: ?c3 :: ?w3 = _) /\ _ =>
      exists (c1 :: w1), x, (c2 :: w2), y, (c3 :: w3)
  end.
  split; [reflexivity|]. repeat split; try assumption; discriminate.
Qed.

Lemma acc_delimited2 at0 w after cs cs' :
  acc at0 (Chr a1 +++ Chr a2 +++ Group 1 (Plus p) +++ Chr b1 +++ Chr b2)
      w after cs cs' ->
  exists x1 x2 inner y1 y2,
    w = x1 :: x2 :: inner ++ [y1; y2] /\
    a1 x1 = true /\ a2 x2 = true /\ b1 y1 = true /\ b2 y2 = true /\
    inner <> [] /\ forallb p inner = true /\ cs' = (1, inner) :: cs.
Proof.
  intros H. acc_inv. cbn [app].
  match goal with
  | |- exists _ _ _ _ _, (?x1 :: ?x2 :: ?c :: ?i ++ [?y1; ?y2] = _) /\ _ =>
      exists x1, x2, (c :: i), y1, y2
  end.
  split; [reflexivity|]. repeat split; try assumption; discriminate.
Qed.

Lemma acc_delimited1 at0 w after cs cs' :
  acc at0 (Chr a1 +++ Group 1 (Plus p) +++ Chr b1) w after cs cs' ->
  exists x1 inner y1,
    w = x1 :: inner ++ [y1] /\ a1 x1 = true /\ b1 y1 = true /\
    inner <> [] /\ forallb p inner = true /\ cs' = (1, inner) :: cs.
Proof.
  intros H. acc_inv. cbn [app].
  match goal with
  | |- exists _ _ _, (?x1 :: ?c :: ?i ++ [?y1] = _) /\ _ =>
      exists x1, (c :: i), y1
  end.
  split; [reflexivity|]. repeat split; try assumption; discriminate.
Qed.

Lemma acc_anchored_chr r at0 w after cs cs' :
  acc at0 (Bol +++ Chr p +++ r) w after cs cs' ->
  at0 = true /\ exists c tl, w = c :: tl /\ p c = true.
Proof. intros H. acc_inv. split; [reflexivity|]. cbn [app]. eauto. Qed.

Lemma acc_anchored_plus r at0 w after cs cs' :
  acc at0 (Bol +++ Plus p +++ r) w after cs cs' ->
  at0 = true /\ exists c tl, w = c :: tl /\ p c = true.
Proof.
  intros H. acc_inv. split; [reflexivity|]. cbn [app].
  match goal with
  | Hf : forallb p (_ :: _) = true |- _ =>
      cbn [forallb] in Hf; apply andb_true_iff in Hf; destruct Hf
  end.
  eauto.
Qed.

Lemma acc_capital_run at0 w after cs cs' :
  acc at0 (Bol +++ Chr p +++ Plus q +++ Eol) w after cs cs' ->
  at0 = true /\ after = [] /\
  exists c tl, w = c :: tl /\ p c = true /\ tl <> [] /\ forallb q tl = true.
Proof.
  intros H. acc_inv. split; [reflexivity|]. split; [reflexivity|].
  cbn [app]. rewrite app_nil_r.
  match goal with
  | |- exists _ _, (?c :: ?d :: ?tl = _) /\ _ => exists c, (d :: tl)
  end.
  split; [reflexivity|]. repeat split; try assumption; discriminate.
Qed.

Lemma acc_suffix at0 w after cs cs' :
  acc at0 (Chr a1 +++ Plus p +++ Eol) w after cs cs' ->
  after = [] /\
  exists x ext, w = x :: ext /\ a1 x = true /\ ext <> [] /\
                forallb p ext = true.
Proof.
  intros H. acc_inv. split; [reflexivity|].
  cbn [app]. rewrite app_nil_r.
  match goal with
  | |- exists _ _, (?x :: ?d :: ?tl = _) /\ _ => exists x, (d :: tl)
  end.
  split; [reflexivity|]. repeat split; try assumption; discriminate.
Qed.

End Shapes.

(** ** Addresses *)

(** X1: [isValidEmail] accepts exactly the texts made of three non-empty
    parts without white space or at sign, the first two separated by an
    at sign and the last two by a period. *)
Theorem isValidEmail_shape :
  forall e,
    Parser.isValidEmail e = true <->
    exists l d t,
      e = l ++ "@"%char :: d ++ "."%char :: t /\
      l <> [] /\ d <> [] /\ t <> [] /\
      forallb address_char l = true /\ forallb address_char d = true /\
      forallb address_char t = true.
Proof.
  intros e. unfold Parser.isValidEmail. rewrite test_spec.
  change Parser.emailRegex
    with (Bol +++ Plus address_char +++ Chr (is_char "@") +++
          Plus address_char +++ Chr (is_char ".") +++ Plus address_char +++ Eol).
  split.
  - intros (pre & w & after & cs & -> & Ha).
    apply acc_three_parts in Ha.
    destruct Ha as (Hpre & -> & l & x & d & y & t & -> & Hx & Hy & Hrest).
    destruct pre; [|discriminate Hpre].
    apply Ascii.eqb_eq in Hx, Hy. subst x y.
    exists l, d, t. rewrite app_nil_r. split; [reflexivity|exact Hrest].
  - intros (l & d & t & -> & Hl & Hd & Ht & Fl & Fd & Ft).
    destruct l as [|l0 l]; [contradiction|].
    destruct d as [|d0 d]; [contradiction|].
    destruct t as [|t0 t]; [contradiction|].
    exists [], ((l0 :: l) ++ "@"%char :: (d0 :: d) ++ "."%char :: t0 :: t), [], [].
    split; [rewrite app_nil_r; reflexivity|].
    replace ((l0 :: l) ++ "@"%char :: (d0 :: d) ++ "."%char :: t0 :: t)
      with ([] ++ (l0 :: l) ++ ["@"%char] ++ (d0 :: d) ++ ["."%char]
               ++ (t0 :: t) ++ [])
      by (cbn [app]; rewrite app_nil_r; reflexivity).
    repeat (econstructor; try eassumption); reflexivity.
Qed.

(** ** What extraction detects *)

Lemma exec_sound r cur m cur' :
  exec r cur = Some (m, cur') ->
  exists pre,
    remaining cur = pre ++ m0 m ++ remaining cur' /\
    acc (at_start cur && is_empty pre) r (m0 m) (remaining cur') [] (m_caps m).
Proof.
  unfold exec. intros H.
  destruct (search r (at_start cur) (remaining cur)) as [[sk st]|] eqn:Hs;
    [|discriminate].
  injection H as <- <-. apply search_sound in Hs.
  destruct Hs as (w & Hs & Ht & Ha). exists sk.
  cbn [m0 m_caps remaining]. rewrite Ht, rev_involutive. auto.
Qed.

Lemma exec_shape pattern cur m cur' :
  In pattern Parser.placeholderPatterns ->
  exec pattern cur = Some (m, cur') ->
  token_shape (m0 m) (capture 1 (m_caps m)) /\
  exists pre, remaining cur = pre ++ m0 m ++ remaining cur'.
Proof.
  intros Hin He. apply exec_sound in He. destruct He as (pre & Hr & Ha).
  split; [|eauto]. clear Hr.
  unfold Parser.placeholderPatterns in Hin.
  destruct Hin as [<-|[<-|[<-|[<-|[]]]]].
  - apply acc_delimited2 in Ha.
    destruct Ha as (x1 & x2 & inner & y1 & y2 & -> & H1 & H2 & H3 & H4
                    & Hne & Hall & ->).
    apply Ascii.eqb_eq in H1, H2, H3, H4. subst.
    split; [exact Hne|]. left. split; [reflexivity|exact Hall].
  - apply acc_delimited1 in Ha.
    destruct Ha as (x1 & inner & y1 & -> & H1 & H2 & Hne & Hall & ->).
    apply Ascii.eqb_eq in H1, H2. subst.
    split; [exact Hne|]. right. left. split; [reflexivity|exact Hall].
  - apply acc_delimited2 in Ha.
    destruct Ha as (x1 & x2 & inner & y1 & y2 & -> & H1 & H2 & H3 & H4
                    & Hne & Hall & ->).
    apply Ascii.eqb_eq in H1, H2, H3, H4. subst.
    split; [exact Hne|]. right. right. left. split; [reflexivity|exact Hall].
  - apply acc_delimited1 in Ha.
    destruct Ha as (x1 & inner & y1 & -> & H1 & H2 & Hne & Hall & ->).
    apply Ascii.eqb_eq in H1, H2. subst.
    split; [exact Hne|]. right. right. right. split; [reflexivity|exact Hall].
Qed.

Lemma match_loop_detected content pattern :
  In pattern Parser.placeholderPatterns ->
  forall fuel cur st st',
    (exists pre, content = pre ++ remaining cur) ->
    Parser.match_loop fuel pattern cur st = Some st' ->
    detected content st -> detected content st'.
Proof.
  intros Hin. induction fuel as [|f IH]; intros cur st st' Hsuf H Hd;
    [discriminate|].
  cbn [Parser.match_loop] in H.
  destruct (exec pattern cur) as [[m cur']|] eqn:He;
    [|injection H as <-; exact Hd].
  destruct (exec_shape _ _ _ _ Hin He) as (Hshape & pre' & Hrem).
  destruct Hsuf as (pre & Hpre).
  assert (Hsuf' : exists q, content = q ++ remaining cur').
  { exists (pre ++ pre' ++ m0 m). rewrite Hpre, Hrem, <- !app_assoc.
    reflexivity. }
  destruct (Parser.has _ _) eqn:Hhas; [eapply IH; eauto|].
  pose proof (createPlaceholder_fields (Parser.world st)
                (trim (capture 1 (m_caps m))) (m0 m)) as Hf.
  destruct (Parser.createPlaceholder _ _ _) as [ph w'].
  eapply IH; [exact Hsuf'|exact H|]. destruct Hd as [Hnd Hkeys]. split; cbn.
  - apply (Permutation_NoDup (Permutation_cons_append _ _)).
    constructor; [|exact Hnd]. apply has_false_not_in. exact Hhas.
  - apply Forall2_snoc; [exact Hkeys|].
    injection Hf as -> _. unfold detected_from. cbn [value originalText].
    split; [reflexivity|]. split.
    + exists (pre ++ pre'), (remaining cur').
      rewrite Hpre, Hrem, <- !app_assoc. reflexivity.
    + exists (capture 1 (m_caps m)). split; [exact Hshape|reflexivity].
Qed.

Lemma each_pattern_detected content patterns :
  incl patterns Parser.placeholderPatterns ->
  forall st st',
    Parser.each_pattern patterns content st = Some st' ->
    detected content st -> detected content st'.
Proof.
  induction patterns as [|r tl IH]; intros Hincl st st' H Hd;
    cbn [Parser.each_pattern] in H; [injection H as <-; exact Hd|].
  destruct (Parser.match_loop _ r _ st) as [st1|] eqn:H1; [|discriminate].
  apply (IH (fun x Hx => Hincl x (or_intror Hx)) st1 st' H).
  eapply match_loop_detected; [apply Hincl; left; reflexivity| |exact H1|exact Hd].
  exists []. reflexivity.
Qed.

Lemma detect_detected w content st :
  Parser.detect w content = Some st -> detected content st.
Proof.
  intros H.
  eapply each_pattern_detected; [apply incl_refl|exact H|].
  split; cbn; constructor.
Qed.

Lemma includes_starts p b : starts_with p (p ++ b) = true.
Proof.
  induction p as [|c p IH]; [reflexivity|]. cbn [app starts_with].
  rewrite Ascii.eqb_refl. exact IH.
Qed.

Lemma includes_middle a p b : includes p (a ++ p ++ b) = true.
Proof.
  induction a as [|c a IH].
  - cbn [app]. destruct (p ++ b) eqn:Hpb; cbn [includes];
      rewrite <- Hpb, includes_starts; reflexivity.
  - cbn [app includes]. rewrite IH. apply orb_true_r.
Qed.

Lemma Forall2_right (A B : Type) (R : A -> B -> Prop) (P : B -> Prop) l l' :
  (forall a b, R a b -> P b) -> Forall2 R l l' -> Forall P l'.
Proof. intros HR. induction 1; constructor; eauto. Qed.

(** X2: every placeholder extraction returns has no value yet, and its
    original text is a delimited token (one of the four styles, with a
    non-empty inner text) that occurs in the content. *)
Theorem extracted_tokens_occur :
  forall h w content,
  exists l,
    Parser.extractPlaceholders h w content = Some l /\
    Forall (fun p =>
              value p = None /\
              includes (originalText p) content = true /\
              exists inner, token_shape (originalText p) inner)
           l.
Proof.
  intros h w content. unfold Parser.extractPlaceholders.
  destruct (detect_total w content) as [st Hst]. rewrite Hst.
  eexists. split; [reflexivity|].
  apply (Permutation_Forall (Permutation_sym (sort_by_perm _ _ _))).
  apply detect_detected in Hst. destruct Hst as [_ Hf].
  eapply Forall2_right; [|exact Hf].
  intros k p (Hv & (a & b & Hc) & inner & Hs & _).
  split; [exact Hv|]. split; [|eauto].
  rewrite Hc. apply includes_middle.
Qed.

Lemma snoc_inj (a b : jstring) x y : a ++ [x] = b ++ [y] -> a = b /\ x = y.
Proof. apply app_inj_tail. Qed.

Lemma forallb_snoc (f : ascii -> bool) l x :
  forallb f (l ++ [x]) = forallb f l && f x.
Proof. rewrite forallb_app. cbn [forallb]. rewrite andb_true_r. reflexivity. Qed.

(** The inner token of a delimited text is determined by the text. *)
Lemma token_shape_inner orig i1 i2 :
  token_shape orig i1 -> token_shape orig i2 -> i1 = i2.
Proof.
  intros [_ H1] [_ H2].
  destruct H1 as [[E1 F1]|[[E1 F1]|[[E1 F1]|[E1 F1]]]];
    destruct H2 as [[E2 F2]|[[E2 F2]|[[E2 F2]|[E2 F2]]]];
    rewrite E1 in E2; cbn [js list_ascii_of_string app] in E2;
    try discriminate E2.
  - injection E2 as E2. apply app_inv_tail in E2. exact E2.
  - injection E2 as E2.
    change (i1 ++ ["}"%char; "}"%char])
      with (i1 ++ ["}"%char] ++ ["}"%char]) in E2.
    rewrite app_assoc, app_comm_cons in E2. apply snoc_inj in E2.
    destruct E2 as [E2 _]. rewrite <- E2 in F2. cbn [forallb] in F2.
    rewrite forallb_snoc in F2. apply andb_true_iff in F2.
    destruct F2 as [_ F2]. apply andb_true_iff in F2.
    destruct F2 as [_ F2]. discriminate F2.
  - injection E2 as E2. apply app_inv_tail in E2. exact E2.
  - injection E2 as E2. apply app_inv_tail in E2. exact E2.
  - injection E2 as E2.
    change (i2 ++ ["}"%char; "}"%char])
      with (i2 ++ ["}"%char] ++ ["}"%char]) in E2.
    rewrite app_assoc, app_comm_cons in E2. apply snoc_inj in E2.
    destruct E2 as [E2 _]. rewrite E2 in F1. cbn [forallb] in F1.
    rewrite forallb_snoc in F1. apply andb_true_iff in F1.
    destruct F1 as [_ F1]. apply andb_true_iff in F1.
    destruct F1 as [_ F1]. discriminate F1.
  - injection E2 as E2. apply app_inv_tail in E2. exact E2.
Qed.

Lemma Forall2_in_right (A B : Type) (R : A -> B -> Prop) l l' b :
  Forall2 R l l' -> In b l' -> exists a, In a l /\ R a b.
Proof.
  induction 1 as [|x y l l' Hxy _ IH]; intros Hin; [destruct Hin|].
  destruct Hin as [<-|Hin].
  - exists x. split; [left; reflexivity|exact Hxy].
  - destruct (IH Hin) as (a & Ha & HR). exists a. split; [right|]; assumption.
Qed.

Lemma detected_distinct content ks ps :
  Forall2 (detected_from content) ks ps -> NoDup ks ->
  NoDup (map originalText ps).
Proof.
  induction 1 as [|k p ks ps Hkp Hrest IH]; intros Hnd; cbn [map];
    [constructor|].
  inversion Hnd as [|? ? Hk Hnd']; subst. constructor; [|apply IH; exact Hnd'].
  intros Hin. apply in_map_iff in Hin. destruct Hin as (p' & Ho & Hp').
  destruct (Forall2_in_right _ _ _ _ _ _ Hrest Hp') as (k' & Hk' & Hkp').
  destruct Hkp as (_ & _ & i & Hs & ->).
  destruct Hkp' as (_ & _ & i' & Hs' & ->).
  rewrite Ho in Hs'. rewrite (token_shape_inner _ _ _ Hs Hs') in Hk.
  contradiction.
Qed.

(** X3: the original texts of the placeholders extraction returns are
    pairwise distinct: no token has two placeholders. *)
Theorem extracted_tokens_distinct :
  forall h w content,
  exists l,
    Parser.extractPlaceholders h w content = Some l /\
    NoDup (map originalText l).
Proof.
  intros h w content. unfold Parser.extractPlaceholders.
  destruct (detect_total w content) as [st Hst]. rewrite Hst.
  eexists. split; [reflexivity|].
  apply (Permutation_NoDup
           (Permutation_map originalText
              (Permutation_sym (sort_by_perm _ _ (Parser.placeholders st))))).
  apply detect_detected in Hst. destruct Hst as [Hnd Hf].
  eapply detected_distinct; eauto.
Qed.

Lemma no_opening_exec pattern s b :
  In pattern Parser.placeholderPatterns ->
  no_opening s = true -> exec pattern (Cursor b s) = None.
Proof.
  intros Hin Hno.
  destruct (exec pattern (Cursor b s)) as [[m cur']|] eqn:He; [|reflexivity].
  exfalso. destruct (exec_shape _ _ _ _ Hin He) as ((_ & Hs) & pre & Hrem).
  cbn [remaining] in Hrem. rewrite Hrem in Hno. unfold no_opening in Hno.
  rewrite !forallb_app in Hno. apply andb_true_iff in Hno.
  destruct Hno as [_ Hno]. apply andb_true_iff in Hno. destruct Hno as [Hno _].
  destruct Hs as [[E _]|[[E _]|[[E _]|[E _]]]]; rewrite E in Hno;
    discriminate Hno.
Qed.

(** X4: a content without an opening curly brace, square bracket or angle
    bracket has no placeholder. *)
Theorem no_delimiter_no_placeholder :
  forall h w content,
    no_opening content = true ->
    Parser.extractPlaceholders h w content = Some [].
Proof.
  intros h w content Hno.
  unfold Parser.extractPlaceholders, Parser.detect, Parser.placeholderPatterns.
  cbn [Parser.each_pattern Parser.match_loop].
  rewrite !no_opening_exec; try exact Hno; cbn; auto 6.
Qed.

Lemma no_delimiter_no_placeholder_witness :
  Parser.extractPlaceholders sample_host sample_world
    (js "This agreement is made by the parties.") = Some [].
Proof.
  apply (no_delimiter_no_placeholder sample_host sample_world
           (js "This agreement is made by the parties.")).
  reflexivity.
Defined.

(** ** Labels *)

Lemma forallb_drop_while (f p : ascii -> bool) s :
  forallb f s = true -> forallb f (drop_while p s) = true.
Proof.
  induction s as [|c s IH]; [reflexivity|]. cbn [drop_while].
  destruct (p c); [|auto]. cbn [forallb]. intros H.
  apply andb_true_iff in H. apply IH, H.
Qed.

Lemma forallb_rev (f : ascii -> bool) s : forallb f (rev s) = forallb f s.
Proof.
  induction s as [|c s IH]; [reflexivity|]. cbn [rev forallb].
  rewrite forallb_app, IH. cbn [forallb]. rewrite andb_true_r.
  apply andb_comm.
Qed.

Lemma forallb_trim (f : ascii -> bool) s :
  forallb f s = true -> forallb f (trim s) = true.
Proof.
  intros H. unfold trim, trimEnd, trimStart.
  rewrite forallb_rev. apply forallb_drop_while. rewrite forallb_rev.
  apply forallb_drop_while. exact H.
Qed.

Lemma capitalize_from_length b s : length (capitalize_from b s) = length s.
Proof.
  revert b. induction s as [|c s IH]; intros b; [reflexivity|].
  cbn [capitalize_from length]. rewrite IH. reflexivity.
Qed.

Lemma case_keeps_dash c :
  is_dash (upper_char c) = is_dash c /\ is_dash (lower_char c) = is_dash c.
Proof. destruct c as [[] [] [] [] [] [] [] []]; split; reflexivity. Qed.

Lemma case_twice c :
  upper_char (upper_char c) = upper_char c /\
  lower_char (lower_char c) = lower_char c /\
  is_char " " (upper_char c) = is_char " " c /\
  is_char " " (lower_char c) = is_char " " c.
Proof. destruct c as [[] [] [] [] [] [] [] []]; repeat split. Qed.

Lemma capitalize_from_no_dash b s :
  forallb (fun c => negb (is_dash c)) s = true ->
  forallb (fun c => negb (is_dash c)) (capitalize_from b s) = true.
Proof.
  revert b. induction s as [|c s IH]; intros b H; [reflexivity|].
  cbn [forallb capitalize_from] in *. apply andb_true_iff in H.
  destruct H as [Hc Hs]. rewrite (IH _ Hs), andb_true_r.
  destruct (case_keeps_dash c) as [Hu Hl]. destruct b; congruence.
Qed.

Lemma capitalize_from_twice b s :
  capitalize_from b (capitalize_from b s) = capitalize_from b s.
Proof.
  revert b. induction s as [|c s IH]; intros b; [reflexivity|].
  cbn [capitalize_from]. destruct (case_twice c) as (Hu & Hl & Hsu & Hsl).
  destruct b; rewrite ?Hu, ?Hl, ?Hsu, ?Hsl, IH; reflexivity.
Qed.

Lemma normalized_no_dash text :
  forallb (fun c => negb (is_dash c)) (normalized_token text) = true.
Proof.
  unfold normalized_token. apply forallb_trim.
  induction text as [|c s IH]; [reflexivity|]. cbn [map forallb].
  rewrite IH, andb_true_r. fold (is_dash c).
  destruct (is_dash c) eqn:Hc; [reflexivity|]. rewrite Hc. reflexivity.
Qed.

(** X5: for a token whose code units all have an upper-case form of one
    code unit (every code unit but the micro sign, the sharp s and the y
    with diaeresis), the label of the created placeholder holds no
    underscore and no dash, has the length of the normalized token, and
    formatting it again changes nothing. *)
Theorem label_well_formed :
  forall w text orig,
    forallb single_unit_upper text = true ->
    let p := fst (Parser.createPlaceholder w text orig) in
    forallb (fun c => negb (is_dash c)) (label p) = true /\
    length (label p) = length (normalized_token text) /\
    Parser.formatLabel (label p) = label p.
Proof.
  intros w text orig _. cbn zeta. rewrite createPlaceholder_fields.
  cbn [fst label]. unfold capitalize_words. split; [|split].
  - apply capitalize_from_no_dash, normalized_no_dash.
  - apply capitalize_from_length.
  - rewrite formatLabel_words. apply capitalize_from_twice.
Qed.

Lemma label_well_formed_witness :
  forallb (fun c => negb (is_dash c)) (js "Signing Date") = true /\
  length (js "Signing Date") = length (normalized_token (js " signing_DATE ")) /\
  Parser.formatLabel (js "Signing Date") = js "Signing Date".
Proof.
  exact (label_well_formed sample_world (js " signing_DATE ")
           (js "{{ signing_DATE }}") eq_refl).
Defined.

(** ** Tokens that do not occur *)

Lemma search_lits_absent p s :
  includes p s = false -> forall bol, search (lits p) bol s = None.
Proof.
  induction s as [|c tl IH]; intros H bol; cbn [includes] in H;
    apply orb_false_iff in H; destruct H as [Hs Ht];
    cbn [search]; rewrite rmatch_lits, Hs; [reflexivity|].
  rewrite (IH Ht). reflexivity.
Qed.

Lemma search_lits_present p s :
  includes p s = true -> forall bol, search (lits p) bol s <> None.
Proof.
  induction s as [|c tl IH]; intros H bol; cbn [includes] in H;
    cbn [search]; rewrite rmatch_lits.
  - rewrite orb_false_r in H. rewrite H. discriminate.
  - destruct (starts_with p (c :: tl)); [discriminate|].
    cbn [orb] in H. specialize (IH H false).
    destruct (search (lits p) false tl) as [[sk st]|]; [discriminate|].
    contradiction.
Qed.

Lemma replace_no_match r s tpl :
  search r true s = None -> replace r s tpl = s.
Proof. unfold replace. cbn [replace_loop is_empty]. intros ->. reflexivity. Qed.

(** X6: placeholders whose original text does not occur in the content
    leave it as it is, whatever their values hold. *)
Theorem fill_absent_tokens :
  forall content phs,
    Forall (fun p => includes (originalText p) content = false) phs ->
    Parser.fillPlaceholders content phs = Some content.
Proof.
  intros content phs H. unfold Parser.fillPlaceholders.
  induction H as [|p tl Hp _ IH]; [reflexivity|].
  cbn [Parser.fill_each]. rewrite fill_one_literal.
  destruct (value p) as [[|c v]|]; try exact IH.
  rewrite replace_no_match; [exact IH|]. apply search_lits_absent. exact Hp.
Qed.

Lemma fill_absent_tokens_witness :
  Parser.fillPlaceholders (js "Dear {{name}},")
    [field (js "Date") (js "{{date}}") (Some (js "$& 2024")) TDate true;
     field (js "Fee") (js "[FEE]") (Some (js "10")) TNumber true]
  = Some (js "Dear {{name}},").
Proof.
  apply (fill_absent_tokens (js "Dear {{name}},")
           [field (js "Date") (js "{{date}}") (Some (js "$& 2024")) TDate true;
            field (js "Fee") (js "[FEE]") (Some (js "10")) TNumber true]).
  repeat constructor.
Defined.

(** X7: filling with a list is filling with its parts one after the
    other, and the placeholders without a value can be left out. *)
Theorem fill_composes :
  forall content l1 l2,
    Parser.fillPlaceholders content (l1 ++ l2)
    = match Parser.fillPlaceholders content l1 with
      | Some filled => Parser.fillPlaceholders filled l2
      | None => None
      end /\
    Parser.fillPlaceholders content l1
    = Parser.fillPlaceholders content (filter nonempty_value l1).
Proof.
  intros content l1 l2. unfold Parser.fillPlaceholders. split.
  - revert content. induction l1 as [|p tl IH]; intros content;
      [reflexivity|].
    cbn [app Parser.fill_each].
    destruct (Parser.fill_one content p); [apply IH|reflexivity].
  - revert content. induction l1 as [|p tl IH]; intros content;
      [reflexivity|].
    cbn [filter Parser.fill_each].
    destruct (nonempty_value p) eqn:Hn.
    + cbn [Parser.fill_each].
      destruct (Parser.fill_one content p); [apply IH|reflexivity].
    + assert (Hone : Parser.fill_one content p = Some content).
      { unfold Parser.fill_one. unfold nonempty_value in Hn.
        destruct (value p) as [[|c v]|]; try reflexivity. discriminate Hn. }
      rewrite Hone. apply IH.
Qed.

(** X8: the pattern built from the escaped original text finds exactly
    the literal occurrences of the text: it tests true on a content
    exactly when the content includes the text, and it has no capture. *)
Theorem escaped_pattern_is_literal :
  forall s content,
  exists re,
    RegExp (Parser.escape s) = Some re /\
    test re content = includes s content /\
    ngroups re = 0.
Proof.
  intros s content. exists (lits s). split; [apply RegExp_escape|]. split.
  - unfold test. destruct (includes s content) eqn:Hi.
    + pose proof (search_lits_present s content Hi true) as H.
      destruct (search (lits s) true content); [reflexivity|contradiction].
    + rewrite (search_lits_absent s content Hi). reflexivity.
  - induction s as [|c s IH]; [reflexivity|]. exact IH.
Qed.

(** ** The highlight view *)

Lemma highlight_one_absent content p :
  includes (originalText p) content = false ->
  Preview.highlight_one content p = Some content.
Proof.
  intros Hi. unfold Preview.highlight_one.
  destruct (Preview.unfilled p); [|reflexivity].
  rewrite RegExp_group_escape. f_equal. apply replace_no_match.
  assert (Hnone : forall s bol, includes (originalText p) s = false ->
            search (Group 1 (lits (originalText p)) +++ Empty) bol s = None).
  { induction s as [|c tl IH]; intros bol H; cbn [includes] in H;
      apply orb_false_iff in H; destruct H as [Hs Ht];
      cbn [search rmatch taken rest caps]; rewrite rmatch_lits, Hs;
      cbn [map flat_map]; [reflexivity|].
    rewrite (IH _ Ht). reflexivity. }
  apply Hnone. exact Hi.
Qed.

(** X9: the highlight view changes nothing for the placeholders that
    have a value other than white space or whose original text does not
    occur; so once every placeholder has such a value, the preview shows
    the filled content whether the highlight is on or off. *)
Theorem highlight_only_unfilled :
  forall content phs,
    Forall (fun p => Preview.unfilled p = false \/
                     includes (originalText p) content = false) phs ->
    Preview.highlightUnfilledPlaceholders phs content = Some content /\
    (Forall (fun p => Preview.unfilled p = false) phs ->
     forall shown original,
       displayContent shown phs original
       = Parser.fillPlaceholders original phs).
Proof.
  intros content phs H. split.
  - unfold Preview.highlightUnfilledPlaceholders.
    induction H as [|p tl Hp _ IH]; [reflexivity|].
    cbn [Preview.highlight_each]. destruct Hp as [Hp|Hp].
    + unfold Preview.highlight_one. rewrite Hp. exact IH.
    + rewrite (highlight_one_absent _ _ Hp). exact IH.
  - intros Hall shown original. unfold displayContent.
    destruct (Parser.fillPlaceholders original phs) as [filled|];
      [|reflexivity].
    destruct shown; [|reflexivity].
    unfold Preview.highlightUnfilledPlaceholders. clear H.
    induction Hall as [|p tl Hp _ IH]; [reflexivity|].
    cbn [Preview.highlight_each]. unfold Preview.highlight_one.
    rewrite Hp. exact IH.
Qed.

Lemma highlight_only_unfilled_witness :
  Preview.highlightUnfilledPlaceholders
    [field (js "Name") (js "{{name}}") (Some (js "Ada")) TText true;
     field (js "Fax") (js "{{fax}}") None TText false]
    (js "Dear {{name}},")
  = Some (js "Dear {{name}},").
Proof.
  refine (proj1 (highlight_only_unfilled (js "Dear {{name}},")
           [field (js "Name") (js "{{name}}") (Some (js "Ada")) TText true;
            field (js "Fax") (js "{{fax}}") None TText false] _)).
  apply Forall_cons; [left; reflexivity|].
  apply Forall_cons; [right; reflexivity|apply Forall_nil].
Defined.

(** ** More on the two validations *)

(** X10: validation goes field by field: the errors of a list put
    together from two lists are the errors of the first followed by the
    errors of the second, and the whole is valid exactly when both are. *)
Theorem validatePlaceholders_app :
  forall h l1 l2,
    errors (Parser.validatePlaceholders h (l1 ++ l2))
    = errors (Parser.validatePlaceholders h l1)
      ++ errors (Parser.validatePlaceholders h l2) /\
    isValid (Parser.validatePlaceholders h (l1 ++ l2))
    = isValid (Parser.validatePlaceholders h l1)
      && isValid (Parser.validatePlaceholders h l2).
Proof.
  intros h l1 l2. unfold Parser.validatePlaceholders. cbn [errors isValid].
  rewrite !validate_fold. cbn [app]. rewrite flat_map_app. split;
    [reflexivity|].
  rewrite length_app.
  destruct (length (flat_map (field_errors h) l1)); reflexivity.
Qed.

Lemma download_unfilled_blank p : Download.unfilled p = Parser.blank (value p).
Proof.
  unfold Download.unfilled, Parser.blank.
  destruct (value p) as [[|c v]|]; reflexivity.
Qed.

Lemma download_errors h phs :
  errors (Download.validateForDownload h phs)
  = missing_summary phs ++ flat_map (download_field_errors h) phs.
Proof.
  unfold Download.validateForDownload, missing_summary. cbn [errors].
  rewrite check_filled_fold, filter_twice. f_equal.
  assert (Hf : filter (fun x => required x && Download.unfilled x) phs
               = filter missing_required phs).
  { apply filter_ext. intros p. unfold missing_required.
    rewrite download_unfilled_blank. reflexivity. }
  rewrite Hf. destruct (filter missing_required phs); reflexivity.
Qed.

Lemma download_field_count h phs :
  length (flat_map (download_field_errors h) phs)
  = length (filter (fun p => negb (Download.unfilled p) && fails_type_check h p)
                   phs).
Proof.
  induction phs as [|p tl IH]; [reflexivity|].
  cbn [flat_map filter]. rewrite length_app, IH. unfold download_field_errors.
  destruct (negb (Download.unfilled p) && fails_type_check h p); reflexivity.
Qed.

(** X11: the errors of the download check are one summary of the missing
    required fields (their number, then their labels in order), present
    exactly when some required field is missing, followed by one error
    for each value that is not blank and fails the check of its type. *)
Theorem validateForDownload_errors :
  forall h phs,
    errors (Download.validateForDownload h phs)
    = missing_summary phs ++ flat_map (download_field_errors h) phs /\
    length (errors (Download.validateForDownload h phs))
    = b2n (existsb missing_required phs)
      + length (filter (fun p => negb (Download.unfilled p)
                                 && fails_type_check h p) phs).
Proof.
  intros h phs. split; [apply download_errors|].
  rewrite download_errors, length_app, download_field_count. f_equal.
  unfold missing_summary.
  induction phs as [|p tl IH]; [reflexivity|]. cbn [filter existsb].
  destruct (missing_required p); [reflexivity|]. exact IH.
Qed.

(** X12: the download check never reports more errors than the
    validation of the parser on the same placeholders. *)
Theorem download_errors_le_parser_errors :
  forall h phs,
    length (errors (Download.validateForDownload h phs))
    <= length (errors (Parser.validatePlaceholders h phs)).
Proof.
  intros h phs.
  rewrite download_errors, length_app, download_field_count.
  unfold Parser.validatePlaceholders. cbn [errors].
  rewrite validate_fold. cbn [app]. rewrite field_errors_count.
  assert (Hsum : length (missing_summary phs)
                 = b2n (existsb missing_required phs)).
  { unfold missing_summary. induction phs as [|p tl IH]; [reflexivity|].
    cbn [filter existsb]. destruct (missing_required p); [reflexivity|].
    exact IH. }
  rewrite Hsum. clear Hsum.
  induction phs as [|p tl IH]; [cbn; lia|].
  cbn [existsb filter] in *.
  assert (Hdl : negb (Download.unfilled p) && fails_type_check h p = true ->
                negb (missing_required p) && type_error h p = true).
  { rewrite download_unfilled_blank.
    unfold missing_required, type_error, nonempty_value, Parser.blank.
    destruct (value p) as [[|c v]|]; [cbn; discriminate| |cbn; discriminate].
    destruct (is_empty (trim (c :: v))); [cbn; discriminate|].
    rewrite andb_false_r. cbn [negb andb]. auto. }
  destruct (missing_required p) eqn:Hm;
    destruct (negb (Download.unfilled p) && fails_type_check h p) eqn:Hd;
    cbn [negb andb orb b2n length] in *.
  - specialize (Hdl eq_refl). discriminate Hdl.
  - destruct (existsb missing_required tl); cbn [b2n] in *; lia.
  - rewrite (Hdl eq_refl). cbn [length]. lia.
  - destruct (type_error h p); cbn [length]; lia.
Qed.

(** ** Trimming *)

Lemma drop_while_app p (a b : jstring) :
  drop_while p (a ++ b)
  = if forallb p a then drop_while p b else drop_while p a ++ b.
Proof.
  induction a as [|c a IH]; [reflexivity|]. cbn [app drop_while forallb].
  destruct (p c); [exact IH|reflexivity].
Qed.

Lemma trimEnd_cons c s :
  trimEnd (c :: s)
  = match trimEnd s with
    | [] => if is_space c then [] else [c]
    | t => c :: t
    end.
Proof.
  unfold trimEnd. cbn [rev]. rewrite drop_while_app.
  destruct (forallb is_space (rev s)) eqn:Hall.
  - assert (Hd : drop_while is_space (rev s) = []).
    { clear -Hall. induction (rev s) as [|x l IH]; [reflexivity|].
      cbn [forallb drop_while] in *. apply andb_true_iff in Hall.
      destruct Hall as [-> Hl]. auto. }
    rewrite Hd. cbn [rev drop_while]. destruct (is_space c); reflexivity.
  - rewrite rev_app_distr. cbn [rev app].
    destruct (rev (drop_while is_space (rev s))) eqn:Hr; [|reflexivity].
    exfalso. apply (f_equal (@rev _)) in Hr. rewrite rev_involutive in Hr.
    cbn [rev] in Hr. apply drop_while_nil in Hr. congruence.
Qed.

Lemma trimStart_head s :
  match trimStart s with [] => True | c :: _ => is_space c = false end.
Proof.
  unfold trimStart. induction s as [|c s IH]; [exact I|].
  cbn [drop_while]. destruct (is_space c) eqn:Hc; [exact IH|exact Hc].
Qed.

Lemma trimStart_fixed c s :
  is_space c = false -> trimStart (c :: s) = c :: s.
Proof. intros H. unfold trimStart. cbn [drop_while]. rewrite H. reflexivity. Qed.

Lemma trim_commute s : trimStart (trimEnd s) = trimEnd (trimStart s).
Proof.
  induction s as [|c s IH]; [reflexivity|].
  rewrite trimEnd_cons. unfold trimStart at 2. cbn [drop_while].
  fold (trimStart s). destruct (is_space c) eqn:Hc.
  - rewrite <- IH. destruct (trimEnd s); [reflexivity|].
    unfold trimStart. cbn [drop_while]. rewrite Hc. reflexivity.
  - rewrite trimEnd_cons.
    destruct (trimEnd s); rewrite ?Hc; apply trimStart_fixed; exact Hc.
Qed.

Lemma trimStart_twice s : trimStart (trimStart s) = trimStart s.
Proof.
  pose proof (trimStart_head s) as H.
  destruct (trimStart s) as [|c t]; [reflexivity|]. apply trimStart_fixed, H.
Qed.

Lemma trimEnd_twice s : trimEnd (trimEnd s) = trimEnd s.
Proof.
  unfold trimEnd. rewrite rev_involutive. f_equal.
  apply (trimStart_twice (rev s)).
Qed.

(** Trimming a trimmed text changes nothing. *)
Lemma trim_twice s : trim (trim s) = trim s.
Proof.
  unfold trim. rewrite (trim_commute (trimStart s)), trimStart_twice.
  apply trimEnd_twice.
Qed.

(** ** Paragraphs *)

Lemma append_fold (A B : Type) (f : A -> list B) l :
  forall acc, fold_left (fun ps x => ps ++ f x) l acc = acc ++ flat_map f l.
Proof.
  induction l as [|x l IH]; intros acc; cbn [fold_left flat_map].
  - symmetry. apply app_nil_r.
  - rewrite IH, app_assoc. reflexivity.
Qed.

Lemma parseTextToParagraphs_lines text :
  Download.parseTextToParagraphs text
  = flat_map Download.paragraph_of_line (split_on "010" text).
Proof.
  unfold Download.parseTextToParagraphs. rewrite append_fold. cbn [app].
  induction (split_on "010" text) as [|line l IH]; [reflexivity|].
  cbn [filter flat_map]. unfold Download.paragraph_of_line at 2.
  destruct (is_empty (trim line)) eqn:He; cbn [negb].
  - exact IH.
  - cbn [flat_map]. rewrite IH. unfold Download.paragraph_of_line at 1.
    rewrite He. reflexivity.
Qed.

(** X13: the paragraphs are the lines of the text that are not blank, in
    their order, each one trimmed; every paragraph is followed by the
    same spacing. *)
Theorem paragraphs_are_trimmed_lines :
  forall text,
    map Download.text (Download.parseTextToParagraphs text)
    = filter (fun t => negb (is_empty t)) (map trim (split_on "010" text)) /\
    Forall (fun p => Download.spacing_after p = 200)
           (Download.parseTextToParagraphs text).
Proof.
  intros text. rewrite parseTextToParagraphs_lines.
  induction (split_on "010" text) as [|line l [IH1 IH2]]; [split; constructor|].
  cbn [flat_map map filter]. split.
  - rewrite map_app, IH1. unfold Download.paragraph_of_line.
    destruct (is_empty (trim line)); [reflexivity|].
    destruct (Download.isHeading (trim line)); reflexivity.
  - apply Forall_app. split; [|exact IH2].
    unfold Download.paragraph_of_line.
    destruct (is_empty (trim line)); [constructor|].
    destruct (Download.isHeading (trim line)); repeat constructor.
Qed.

(** ** Headings *)

Lemma heading_pattern_first pattern t :
  In pattern Download.headingPatterns ->
  test pattern t = true ->
  exists c tl, t = c :: tl /\ (is_upper c = true \/ is_digit c = true).
Proof.
  intros Hin Ht. apply test_spec in Ht.
  destruct Ht as (pre & w & after & cs & -> & Ha).
  unfold Download.headingPatterns in Hin.
  assert (Hfirst : is_empty pre = true /\
            exists c tl, w = c :: tl /\ (is_upper c = true \/ is_digit c = true)).
  { destruct Hin as [<-|[<-|[<-|[<-|[]]]]].
    - apply acc_anchored_chr in Ha. destruct Ha as (-> & c & tl & -> & Hc). eauto 6.
    - apply acc_anchored_plus in Ha. destruct Ha as (-> & c & tl & -> & Hc). eauto 6.
    - apply acc_anchored_chr in Ha. destruct Ha as (-> & c & tl & -> & Hc). eauto 6.
    - apply acc_anchored_chr in Ha. destruct Ha as (-> & c & tl & -> & Hc). eauto 6. }
  destruct Hfirst as (Hpre & c & tl & -> & Hc).
  destruct pre; [|discriminate Hpre]. cbn [app]. eauto.
Qed.

Lemma isHeading_first t :
  Download.isHeading t = true ->
  length t < 100 /\
  exists c tl, trim t = c :: tl /\ (is_upper c = true \/ is_digit c = true).
Proof.
  unfold Download.isHeading. intros H. apply andb_true_iff in H.
  destruct H as [Hex Hlen]. apply Nat.ltb_lt in Hlen. split; [exact Hlen|].
  apply existsb_exists in Hex. destruct Hex as (pattern & Hin & Ht).
  eapply heading_pattern_first; eauto.
Qed.

(** X14: a heading paragraph is shorter than 100 code units, starts with
    an upper-case letter or a digit, and has level 1, 2 or 3; so a line
    that starts otherwise (a bullet, a lower-case letter) or that is
    longer is always a body paragraph. *)
Theorem headings_start_with_capital_or_digit :
  forall text,
    Forall (fun p =>
              match Download.heading p with
              | Some level =>
                  length (Download.text p) < 100 /\
                  (exists c tl, Download.text p = c :: tl /\
                                (is_upper c = true \/ is_digit c = true)) /\
                  (level = Download.HEADING_1 \/ level = Download.HEADING_2 \/
                   level = Download.HEADING_3)
              | None => True
              end)
           (Download.parseTextToParagraphs text).
Proof.
  intros text. rewrite parseTextToParagraphs_lines.
  apply Forall_flat_map. apply Forall_forall. intros line _.
  unfold Download.paragraph_of_line.
  destruct (is_empty (trim line)); [constructor|].
  destruct (Download.isHeading (trim line)) eqn:Hh;
    (apply Forall_cons; [|apply Forall_nil]);
    cbn [Download.heading Download.text]; [|exact I].
  apply isHeading_first in Hh. rewrite trim_twice in Hh.
  destruct Hh as [Hlen Hfirst]. split; [exact Hlen|]. split; [exact Hfirst|].
  unfold Download.getHeadingLevel.
  destruct (test Download.numbered (trim line)); [auto|].
  destruct (test Download.all_caps (trim line)); auto.
Qed.

Lemma upper_not_digit c : is_upper c = true -> is_digit c = false.
Proof.
  destruct c as [[] [] [] [] [] [] [] []]; vm_compute; intros H;
    (reflexivity || discriminate H).
Qed.

Lemma all_caps_shape t :
  test Download.all_caps t = true <->
  exists c tl, t = c :: tl /\ is_upper c = true /\ tl <> [] /\
               forallb Download.upper_or_space tl = true.
Proof.
  rewrite test_spec. unfold Download.all_caps. split.
  - intros (pre & w & after & cs & -> & Ha). apply acc_capital_run in Ha.
    destruct Ha as (Hpre & -> & c & tl & -> & Hc & Hne & Hall).
    destruct pre; [|discriminate Hpre]. exists c, tl.
    rewrite app_nil_r. auto.
  - intros (c & tl & -> & Hc & Hne & Hall).
    destruct tl as [|d tl]; [contradiction|].
    exists [], (c :: d :: tl), [], []. split; [rewrite app_nil_r; reflexivity|].
    replace (c :: d :: tl) with ([] ++ [c] ++ (d :: tl) ++ [])
      by (cbn [app]; rewrite app_nil_r; reflexivity).
    repeat (econstructor; try eassumption).
Qed.

(** X15: a line becomes a heading of level 1 exactly when, trimmed, it
    is an upper-case letter followed by at least one more code unit, all
    of them upper-case letters or white space, and is shorter than 100. *)
Theorem level_one_headings :
  forall line,
    (exists p, Download.paragraph_of_line line = [p] /\
               Download.heading p = Some Download.HEADING_1)
    <->
    (exists c tl,
        trim line = c :: tl /\ is_upper c = true /\ tl <> [] /\
        forallb Download.upper_or_space tl = true /\
        length (trim line) < 100).
Proof.
  intros line. unfold Download.paragraph_of_line. cbv zeta. split.
  - intros (p & Hp & Hh).
    destruct (is_empty (trim line)); [discriminate Hp|].
    destruct (Download.isHeading (trim line)) eqn:Hi;
      injection Hp as <-; cbn [Download.heading] in Hh; [|discriminate Hh].
    unfold Download.getHeadingLevel in Hh.
    destruct (test Download.numbered (trim line)); [discriminate Hh|].
    destruct (test Download.all_caps (trim line)) eqn:Hc; [|discriminate Hh].
    apply all_caps_shape in Hc. destruct Hc as (c & tl & Ht & Hrest).
    apply isHeading_first in Hi. destruct Hi as [Hlen _].
    exists c, tl. split; [exact Ht|]. repeat split; try apply Hrest.
    exact Hlen.
  - intros (c & tl & Ht & Hc & Hne & Hall & Hlen).
    assert (Hcaps : test Download.all_caps (trim line) = true).
    { apply all_caps_shape. exists c, tl. auto. }
    assert (Hnum : test Download.numbered (trim line) = false).
    { destruct (test Download.numbered (trim line)) eqn:Hn; [|reflexivity].
      apply test_spec in Hn.
      destruct Hn as (pre & w & after & cs & Hs & Ha).
      unfold Download.numbered in Ha. apply acc_anchored_plus in Ha.
      destruct Ha as (Hpre & d & w' & -> & Hd).
      destruct pre; [|discriminate Hpre]. rewrite Ht in Hs.
      injection Hs as -> _. rewrite (upper_not_digit _ Hc) in Hd.
      discriminate Hd. }
    assert (Hne' : is_empty (trim line) = false) by (rewrite Ht; reflexivity).
    assert (Hhead : Download.isHeading (trim line) = true).
    { unfold Download.isHeading, Download.headingPatterns. cbn [existsb].
      rewrite trim_twice, Hcaps. apply Nat.ltb_lt in Hlen. rewrite Hlen.
      reflexivity. }
    rewrite Hne', Hhead. unfold Download.getHeadingLevel.
    rewrite Hnum, Hcaps. eexists. split; reflexivity.
Qed.

(** ** The name of the downloaded file *)

(** X16: the downloaded file is named after the uploaded one: when the
    name ends in a period followed by a non-empty extension without
    period or slash, that extension is cut off with its period; any other
    name is kept whole; then [_completed.docx] is appended. *)
Theorem completed_filename :
  forall name,
    (exists base ext,
        name = base ++ "."%char :: ext /\ ext <> [] /\
        forallb App.extension_char ext = true /\
        App.completedFilename name = base ++ js "_completed.docx")
    \/
    ((forall base ext,
         name = base ++ "."%char :: ext ->
         ext = [] \/ forallb App.extension_char ext = false) /\
     App.completedFilename name = name ++ js "_completed.docx").
Proof.
  intros name. unfold App.completedFilename, replace_first.
  destruct (search App.extension true name) as [[sk st]|] eqn:Hs.
  - left. apply search_sound in Hs. destruct Hs as (w & Hn & Ht & Ha).
    unfold App.extension in Ha. apply acc_suffix in Ha.
    destruct Ha as (Hrest & x & ext & -> & Hx & Hne & Hall).
    apply Ascii.eqb_eq in Hx. subst x. exists sk, ext.
    rewrite Hrest in *. rewrite app_nil_r in Hn.
    cbn [expand app]. rewrite app_nil_r. auto.
  - right. split; [|reflexivity]. intros base ext Hn.
    destruct ext as [|e ext]; [left; reflexivity|]. right.
    destruct (forallb App.extension_char (e :: ext)) eqn:Hall; [|reflexivity].
    exfalso.
    assert (Ha : acc (true && is_empty base) App.extension
                     ("."%char :: e :: ext) [] [] []).
    { unfold App.extension.
      replace ("."%char :: e :: ext) with (["."%char] ++ (e :: ext) ++ [])
        by (cbn [app]; rewrite app_nil_r; reflexivity).
      econstructor; [constructor; reflexivity|].
      econstructor; constructor. exact Hall. }
    destruct (search_complete _ _ _ _ _ _ Ha) as (sk & st & Hsome).
    rewrite app_nil_r, <- Hn, Hs in Hsome. discriminate Hsome.
Qed.

(** ** The request loop *)

Section RequestFacts.
Variable T : Type.
Variable json : jstring -> T + jstring.
Variable error_detail : jstring -> option jstring.
Variable config : Request.ApiConfig.
Variable server : nat -> Request.outcome.

Lemma server_error_not_ok s :
  (500 <=? s) = true -> negb (Request.ok s) = true.
Proof.
  intros H. apply Nat.leb_le in H. unfold Request.ok.
  destruct (s <=? 299) eqn:H2; [apply Nat.leb_le in H2; lia|].
  rewrite andb_false_r. reflexivity.
Qed.

Lemma request_from_runs endpoint :
  forall k fuel n,
    n + k <= Request.retries_or_0 config -> k < fuel ->
    (forall j, n <= j < n + k -> Request.server_error (server j) = true) ->
    (n + k = Request.retries_or_0 config \/ Request.server_error (server (n + k)) = false) ->
    Request.request_from json error_detail config server fuel endpoint n
    = Some (Request.settle json error_detail (server (n + k)),
            Request.schedule (Request.baseUrl config ++ endpoint) n k).
Proof.
  induction k as [|k IH]; intros fuel n Hcap Hfuel Hbad Hend;
    (destruct fuel as [|f]; [inversion Hfuel|]); cbn [Request.request_from].
  - rewrite Nat.add_0_r in *. cbn [Request.schedule].
    destruct (server n) as [s b|a m] eqn:Hsrv; [|reflexivity].
    destruct Hend as [Hend|Hend].
    + rewrite Hend, Nat.ltb_irrefl, andb_false_r. reflexivity.
    + cbn [Request.server_error] in Hend. rewrite Hend, andb_false_r.
      reflexivity.
  - assert (Hn : Request.server_error (server n) = true)
      by (apply Hbad; lia).
    destruct (server n) as [s b|a m] eqn:Hsrv; [|discriminate Hn].
    cbn [Request.server_error] in Hn.
    rewrite (server_error_not_ok s Hn), Hn.
    assert (Hlt : (n <? Request.retries_or_0 config) = true) by (apply Nat.ltb_lt; lia).
    rewrite Hlt. cbn [andb].
    rewrite (IH f (S n)); try lia.
    + cbn [Request.schedule]. rewrite <- plus_n_Sm. reflexivity.
    + intros j Hj. apply Hbad. lia.
    + rewrite <- plus_n_Sm in Hend. exact Hend.
Qed.

Lemma first_decisive cap :
  exists k, k <= cap /\
    (forall j, j < k -> Request.server_error (server j) = true) /\
    (k = cap \/ Request.server_error (server k) = false).
Proof.
  induction cap as [|cap (k & Hk & Hbad & Hend)].
  - exists 0. repeat split; [lia|intros j Hj; lia|left; reflexivity].
  - destruct (Request.server_error (server k)) eqn:Hse.
    + destruct Hend as [->|Hend]; [|discriminate Hend].
      exists (S cap). repeat split; [lia| |left; reflexivity].
      intros j Hj. destruct (Nat.eq_dec j cap) as [->|Hne]; [exact Hse|].
      apply Hbad. lia.
    + exists k. repeat split; [lia|exact Hbad|right; exact Hse].
Qed.

Lemma schedule_fetches url k : forall n,
  Request.fetches (Request.schedule url n k) = S k.
Proof.
  induction k as [|k IH]; intros n; [reflexivity|].
  cbn [Request.schedule]. unfold Request.fetches in *. cbn [filter length].
  rewrite IH. reflexivity.
Qed.

Lemma schedule_waited url k : forall n,
  Request.waited (Request.schedule url n k) + 2 ^ n * 1000
  = 2 ^ (n + k) * 1000.
Proof.
  induction k as [|k IH]; intros n.
  - rewrite Nat.add_0_r. reflexivity.
  - cbn [Request.schedule Request.waited]. specialize (IH (S n)).
    rewrite <- plus_n_Sm. cbn [Nat.add] in IH. rewrite <- IH.
    rewrite Nat.pow_succ_r'. lia.
Qed.

End RequestFacts.

(** X17: a request whose first [k] fetches are answered with a status of
    500 or more, and whose next one is not or is the last one allowed,
    makes [k + 1] fetches, waits 1000, 2000, 4000, ... milliseconds before
    each new one ([(2^k - 1) * 1000] in all), and ends the way the last
    answer decides. *)
Theorem request_backoff_schedule :
  forall (T : Type) (json : jstring -> T + jstring) error_detail config
         server endpoint k,
    k <= Request.retries_or_0 config ->
    (forall j, j < k -> Request.server_error (server j) = true) ->
    (k = Request.retries_or_0 config \/
     Request.server_error (server k) = false) ->
    Request.request json error_detail config server endpoint
    = Some (Request.settle json error_detail (server k),
            Request.schedule (Request.baseUrl config ++ endpoint) 0 k) /\
    Request.fetches
      (Request.schedule (Request.baseUrl config ++ endpoint) 0 k) = S k /\
    Request.waited
      (Request.schedule (Request.baseUrl config ++ endpoint) 0 k)
    = (2 ^ k - 1) * 1000.
Proof.
  intros T json error_detail config server endpoint k Hk Hbad Hend.
  split; [|split].
  - unfold Request.request.
    apply (request_from_runs T json error_detail config server endpoint k
             (S (Request.retries_or_0 config)) 0); try lia; auto.
    intros j Hj. apply Hbad. lia.
  - apply schedule_fetches.
  - pose proof (schedule_waited (Request.baseUrl config ++ endpoint) k 0) as H.
    cbn [Nat.add Nat.pow] in H. pose proof (Nat.pow_nonzero 2 k). lia.
Qed.

Lemma request_backoff_schedule_witness :
  Request.request (fun body => inl body) (fun _ => None) sample_config
    sample_server (js "/health")
  = Some (Request.succeeded (js "{}"),
          [Request.Fetched (js "http://localhost:8000/health");
           Request.Delayed 1000;
           Request.Fetched (js "http://localhost:8000/health");
           Request.Delayed 2000;
           Request.Fetched (js "http://localhost:8000/health")]).
Proof.
  refine (proj1 (request_backoff_schedule jstring (fun body => inl body)
                   (fun _ => None) sample_config sample_server (js "/health")
                   2 _ _ _)).
  - cbn. lia.
  - intros [|[|j]] Hj; [reflexivity|reflexivity|lia].
  - right. reflexivity.
Defined.

(** X18: whatever the server answers, a request ends; it makes at most
    one fetch more than the configured retries and waits at most
    [(2^retries - 1) * 1000] milliseconds in all; a first answer that is
    a rejection (an abort, a network failure) or a status below 500 is
    never retried; and a successful result always carries data and no
    error. *)
Theorem request_is_bounded :
  forall (T : Type) (json : jstring -> T + jstring) error_detail config
         server endpoint,
  exists r evs,
    Request.request json error_detail config server endpoint = Some (r, evs) /\
    Request.fetches evs <= S (Request.retries_or_0 config) /\
    Request.waited evs <= (2 ^ Request.retries_or_0 config - 1) * 1000 /\
    (Request.server_error (server 0) = false ->
     evs = [Request.Fetched (Request.baseUrl config ++ endpoint)] /\
     r = Request.settle json error_detail (server 0)) /\
    (Request.success r = true ->
     Request.error r = None /\ exists d, Request.data r = Some d).
Proof.
  intros T json error_detail config server endpoint.
  destruct (first_decisive server (Request.retries_or_0 config))
    as (k & Hk & Hbad & Hend).
  assert (Hrun : Request.request json error_detail config server endpoint
                 = Some (Request.settle json error_detail (server k),
                         Request.schedule (Request.baseUrl config ++ endpoint) 0 k)).
  { unfold Request.request.
    apply (request_from_runs T json error_detail config server endpoint k
             (S (Request.retries_or_0 config)) 0); try lia; auto.
    intros j Hj. apply Hbad. lia. }
  do 2 eexists. split; [exact Hrun|]. split; [|split; [|split]].
  - rewrite schedule_fetches. lia.
  - pose proof (schedule_waited (Request.baseUrl config ++ endpoint) k 0) as H.
    cbn [Nat.add Nat.pow] in H.
    pose proof (Nat.pow_le_mono_r 2 k (Request.retries_or_0 config)
                  ltac:(lia) Hk).
    pose proof (Nat.pow_nonzero 2 k). lia.
  - intros H0. destruct k as [|k]; [split; reflexivity|].
    rewrite (Hbad 0) in H0 by lia. discriminate H0.
  - unfold Request.settle.
    destruct (server k) as [s b|[] m]; cbn; try discriminate.
    destruct (negb (Request.ok s)); cbn; [discriminate|].
    destruct (json b); cbn; [eauto|discriminate].
Qed.

(* ================================================================= *)
(** ** The filled and unfilled boundary, as the preview shows it *)








(** The label is spliced into the replacement template of the highlight,
    so a dollar pattern in it is interpreted: [$&] in the title is
    replaced by the token. *)
Lemma highlight_label_template_example :
  Preview.highlightUnfilledPlaceholders
    [field (js "$& Fee") (js "{fee}") None TText true] (js "Pay {fee}")
  = Some (js "Pay " ++ marker_open (js "{fee} Fee") ++ js "{fee}</span>").
Proof. vm_compute. reflexivity. Qed.
